(** * Parametric floor generator (archipack_floor): model and properties

    Shallow embedding of [archipack_floor] from [__init__.py]: the box
    primitive [add_cube], the layout sweeps [tile_grout], [tile_regular],
    [tile_large_small], [wood_regular], [wood_parquet], the dispatcher
    [update_data] and the read-only accessors.

    Numbers.  Python floats are idealised as exact rationals ([Q]); every
    arithmetic expression keeps the shape and the association it has in
    the source.  Statements about coordinates use [==] (equality of
    rationals), statements about buffers use Leibniz equality.  Rounding
    and overflow are not modelled: a float quotient such as
    [100 / offset] overflows for a positive [offset] below about
    [5.6e-307], where the quotient of rationals does not; the declared
    minimum of [offset], [0.001], is far above that.

    Randomness.  [random.uniform(a, b)] is [a + (b - a) * random()]; the
    random source is a stream [rnd : nat -> Q] and the state counts the
    draws made so far.

    Loops.  A [while] loop is iterated with a fuel bound; running out of
    fuel is the outcome [OutOfFuel], distinct from a raised exception. *)

From Stdlib Require Import QArith Qround Qminmax ZArith List Bool Lia Lqa.
Import ListNotations.
Open Scope Q_scope.

(* ------------------------------------------------------------------ *)
(** ** Outcomes of a computation *)

Inductive exn : Type := ZeroDivisionError.

Inductive result (A : Type) : Type :=
| Done (a : A)
| Raise (e : exn)
| OutOfFuel.

Arguments Done {A} a.
Arguments Raise {A} e.
Arguments OutOfFuel {A}.

Definition bind {A B : Type} (m : result A) (k : A -> result B) : result B :=
  match m with
  | Done a => k a
  | Raise e => Raise e
  | OutOfFuel => OutOfFuel
  end.

Notation "x <- m ;; k" := (bind m (fun x => k))
  (at level 61, m at next level, right associativity).
Notation "' pat <- m ;; k" := (bind m (fun x => match x with pat => k end))
  (at level 61, pat pattern, m at next level, right associativity).

(** [while cond: body], the test first, then one unit of fuel per turn. *)
Fixpoint while {T : Type} (fuel : nat) (cond : T -> bool)
         (body : T -> result T) (s : T) : result T :=
  if cond s then
    match fuel with
    | O => OutOfFuel
    | S n => s' <- body s ;; while n cond body s'
    end
  else Done s.

(** [for i in range(n): s = body(s)] with a body that ignores [i]. *)
Fixpoint for_range {T : Type} (n : nat) (body : T -> T) (s : T) : T :=
  match n with
  | O => s
  | S k => for_range k body (body s)
  end.

(* ------------------------------------------------------------------ *)
(** ** Float comparisons and division *)

Definition Qltb (a b : Q) : bool := negb (Qle_bool b a).
Definition Qgeb (a b : Q) : bool := Qle_bool b a.
Definition Qgtb (a b : Q) : bool := Qltb b a.

(** Python's [a / b] on floats raises on a zero divisor. *)
Definition pydiv (a b : Q) : result Q :=
  if Qeq_bool b 0 then Raise ZeroDivisionError else Done (a / b).

(* ------------------------------------------------------------------ *)
(** ** Constants and properties of the object *)

Definition INCH : Q := 0.0254.

Inductive material : Type := wood | tile.
Inductive wood_style : Type :=
  wood_regular_style | parquet | herring_parquet | herring.
Inductive tile_style : Type :=
  tile_regular_style | large_small | large_many_small | hexagon.

Record archipack_floor : Type := {
  floor_material : material;
  wood_styles : wood_style;
  tile_styles : tile_style;
  width : Q;
  length : Q;
  spacing : Q;
  thickness : Q;
  vary_thickness : bool;
  thickness_variance : Q;
  board_width : Q;
  vary_width : bool;
  width_variance : Q;
  width_spacing : Q;
  board_length : Q;
  vary_length : bool;
  length_variance : Q;
  max_boards : Z;
  length_spacing : Q;
  boards_in_group : Z;
  tile_width : Q;
  tile_length : Q;
  mortar_depth : Q;
  offset_tiles : bool;
  random_offset : bool;
  offset : Q;
  offset_variance : Q
}.


(* ------------------------------------------------------------------ *)
(** ** Geometry buffers *)

Definition vertex : Type := Q * Q * Q.
Definition face : Type := nat * nat * nat * nat.

(** [vs], [fs], [ms] of the object, and the number of random draws made. *)
Record buffers : Type := {
  vs : list vertex;
  fs : list face;
  ms : list nat;
  draws : nat
}.

(** [append_all(v_list, add)] *)
Definition append_all {A : Type} (v_list add : list A) : list A :=
  fold_left (fun acc i => acc ++ [i]) add v_list.

Arguments append_all : simpl never.

Definition cube_vertices (x y z w l t : Q) : list vertex :=
  [(x, y, z); (x, y, z + t); (x + w, y, z); (x + w, y, z + t);
   (x, y + l, z); (x, y + l, z + t); (x + w, y + l, z); (x + w, y + l, z + t)].

Definition cube_faces (p : nat) : list face :=
  [(p, p + 2, p + 3, p + 1); (p + 2, p + 6, p + 7, p + 3);
   (p + 1, p + 3, p + 7, p + 5); (p + 6, p + 4, p + 5, p + 7);
   (p, p + 1, p + 5, p + 4); (p, p + 4, p + 6, p + 2)]%nat.

Definition parquet_faces (p : nat) : list face :=
  [(p, p + 3, p + 2, p + 1); (p + 4, p + 5, p + 6, p + 7);
   (p, p + 4, p + 7, p + 3); (p + 3, p + 7, p + 6, p + 2);
   (p + 1, p + 2, p + 6, p + 5); (p, p + 1, p + 5, p + 4)]%nat.

Section Generator.

Variable rnd : nat -> Q.
Variable self : archipack_floor.

(** [uniform(a, b)] from the [random] module. *)
Definition uniform (a b : Q) (s : buffers) : Q * buffers :=
  (a + (b - a) * rnd (draws s),
   {| vs := vs s; fs := fs s; ms := ms s; draws := S (draws s) |}).

Definition add_cube (x y z w l t : Q) (clip : bool) (mat_id : nat)
           (s : buffers) : buffers :=
  let p := List.length (vs s) in
  if clip && (Qgeb x (width self) || Qgeb y (length self)) then s
  else
    let w := if clip && Qgtb (x + w) (width self) then width self - x else w in
    let l := if clip && Qgtb (y + l) (length self) then length self - y else l in
    {| vs := append_all (vs s) (cube_vertices x y z w l t);
       fs := append_all (fs s) (cube_faces p);
       ms := append_all (ms s) (map (fun _ => mat_id) (seq 0 6));
       draws := draws s |}.

(** [tile_grout]: the mortar bed, one slab over the whole floor. *)
Definition tile_grout (s : buffers) : buffers :=
  let z := thickness self - mortar_depth self in
  let x := width self in
  let y := length self in
  add_cube 0 0 0 x y z true 1 s.

(** One turn of the inner [while cur_x < self.width] of [tile_regular]. *)
Definition tile_regular_cell (o z cur_y tl2 : Q) (off : bool)
           (st : Q * buffers) : result (Q * buffers) :=
  let '(cur_x, s) := st in
  let '(tw2, s) :=
    if Qltb cur_x (width self) && Qltb (width self) (cur_x + tile_width self)
    then (width self - cur_x, s)
    else if Qeq_bool cur_x 0 && off && offset_tiles self
            && negb (random_offset self)
    then (tile_width self * o, s)
    else if Qeq_bool cur_x 0 && offset_tiles self && random_offset self
    then
      let v := tile_length self * 0.0049 * offset_variance self in
      uniform ((tile_length self / 2) - v) ((tile_length self / 2) + v) s
    else (tile_width self, s) in
  let s := add_cube cur_x cur_y 0 tw2 tl2 z true 0 s in
  Done (cur_x + (tw2 + spacing self), s).

(** One turn of the outer [while cur_y < self.length] of [tile_regular]. *)
Definition tile_regular_row (fuel : nat) (o z : Q)
           (st : Q * bool * buffers) : result (Q * bool * buffers) :=
  let '(cur_y, off, s) := st in
  let cur_x := 0 in
  let tl2 :=
    if Qltb cur_y (length self) && Qltb (length self) (cur_y + tile_length self)
    then length self - cur_y
    else tile_length self in
  '(_, s) <- while fuel (fun st => Qltb (fst st) (width self))
                   (tile_regular_cell o z cur_y tl2 off) (cur_x, s) ;;
  Done (cur_y + (tl2 + spacing self), negb off, s).

Definition tile_regular (fuel : nat) (s : buffers) : result buffers :=
  let off := false in
  d <- pydiv 100 (offset self) ;;
  o <- pydiv 1 d ;;
  let cur_y := 0 in
  let z := thickness self in
  '(_, _, s) <- while fuel (fun st => Qltb (fst (fst st)) (length self))
                      (tile_regular_row fuel o z) (cur_y, off, s) ;;
  Done s.

(** One turn of the inner [while cur_x < self.width] of
    [tile_large_small]; the loop changes [cur_x], [cur_y], [step_back]. *)
Definition tile_large_small_cell (row : Z) (st : Q * Q * bool * buffers)
  : result (Q * Q * bool * buffers) :=
  let '(cur_x, cur_y, step_back, s) := st in
  let th := thickness self in
  let sp := spacing self in
  let tw := tile_width self in
  let tl := tile_length self in
  let s_tw := (tw - sp) / 2 in
  let s_tl := (tl - sp) / 2 in
  if (row =? 0)%Z || (row =? 1)%Z then
    let s :=
      if Qltb cur_y 0 then add_cube cur_x 0 0 tw (tl + cur_y) th true 0 s
      else add_cube cur_x cur_y 0 tw tl th true 0 s in
    let s := add_cube (cur_x + tw + sp) (cur_y + s_tl + sp) 0 s_tw s_tl th
                      true 0 s in
    if step_back
    then Done (cur_x + (tw + sp), cur_y - (s_tl + sp), negb step_back, s)
    else Done (cur_x + (tw + s_tw + 2 * sp), cur_y + (s_tl + sp),
               negb step_back, s)
  else
    if Qeq_bool cur_x 0 then
      let s := add_cube cur_x cur_y 0 s_tw tl th true 0 s in
      let s := add_cube (cur_x + s_tw + sp) (cur_y + s_tl + sp) 0 s_tw s_tl th
                        true 0 s in
      let s := add_cube cur_x (cur_y - sp - s_tl) 0 s_tw s_tl th true 0 s in
      Done (cur_x + ((2 * s_tw) + tw + (3 * sp)), cur_y, step_back, s)
    else
      let s := add_cube cur_x cur_y 0 tw tl th true 0 s in
      let s := add_cube (cur_x + tw + sp) (cur_y + s_tl + sp) 0 s_tw s_tl th
                        true 0 s in
      Done (cur_x + ((2 * tw) + (3 * sp) + s_tw), cur_y, step_back, s).

(** One turn of the outer [while cur_y < self.length]; the state is
    [cur_y], [pre_y], [row] and the buffers. *)
Definition tile_large_small_row (fuel : nat) (st : Q * Q * Z * buffers)
  : result (Q * Q * Z * buffers) :=
  let '(cur_y, pre_y, row, s) := st in
  let sp := spacing self in
  let tw := tile_width self in
  let tl := tile_length self in
  let s_tw := (tw - sp) / 2 in
  let s_tl := (tl - sp) / 2 in
  let cur_x := if (row =? 1)%Z then s_tw + sp else 0 in
  let step_back := true in
  '(_, _, _, s) <- while fuel
                     (fun st => Qltb (fst (fst (fst st))) (width self))
                     (tile_large_small_cell row) (cur_x, cur_y, step_back, s) ;;
  let cur_y :=
    if (row =? 0)%Z || (row =? 2)%Z then pre_y + tl + sp
    else pre_y + s_tl + sp in
  let pre_y := cur_y in
  Done (cur_y, pre_y, ((row + 1) mod 3)%Z, s).

Definition tile_large_small (fuel : nat) (s : buffers) : result buffers :=
  let cur_y := 0 in
  let row := 0%Z in
  let pre_y := cur_y in
  '(_, _, _, s) <- while fuel
                     (fun st => Qltb (fst (fst (fst st))) (length self))
                     (tile_large_small_row fuel) (cur_y, pre_y, row, s) ;;
  Done s.

(** One turn of the inner [while cur_y < self.length] of [wood_regular];
    the state is [cur_y], [counter] and the buffers. *)
Definition wood_regular_board (cur_x bw2 : Q) (st : Q * Z * buffers)
  : result (Q * Z * buffers) :=
  let '(cur_y, counter, s) := st in
  let bl := board_length self in
  let z := thickness self in
  let '(z, s) :=
    if vary_thickness self then
      let v := z * 0.99 * (thickness_variance self / 100) in
      uniform (z - v) (z + v) s
    else (z, s) in
  let bl2 := bl in
  let '(bl2, s) :=
    if vary_length self then
      let v := bl * (length_variance self / 100) * 0.99 in
      uniform (bl - v) (bl + v) s
    else (bl2, s) in
  let bl2 :=
    if ((counter >=? max_boards self)%Z && vary_length self)
       || Qgtb (cur_y + bl2) (length self)
    then length self - cur_y
    else bl2 in
  let s := add_cube cur_x cur_y 0 bw2 bl2 z true 0 s in
  Done (cur_y + (bl2 + length_spacing self), (counter + 1)%Z, s).

(** One turn of the outer [while cur_x < self.width] of [wood_regular]. *)
Definition wood_regular_column (fuel : nat) (st : Q * buffers)
  : result (Q * buffers) :=
  let '(cur_x, s) := st in
  let bw := board_width self in
  let '(bw2, s) :=
    if vary_width self then
      let v := bw * (width_variance self / 100) * 0.99 in
      uniform (bw - v) (bw + v) s
    else (bw, s) in
  let bw2 := if Qgtb (bw2 + cur_x) (width self) then width self - cur_x
             else bw2 in
  let cur_y := 0 in
  let counter := 1%Z in
  '(_, _, s) <- while fuel (fun st => Qltb (fst (fst st)) (length self))
                     (wood_regular_board cur_x bw2) (cur_y, counter, s) ;;
  Done (cur_x + (bw2 + width_spacing self), s).

Definition wood_regular (fuel : nat) (s : buffers) : result buffers :=
  let cur_x := 0 in
  '(_, s) <- while fuel (fun st => Qltb (fst st) (width self))
                  (wood_regular_column fuel) (cur_x, s) ;;
  Done s.

(** Body of [for i in range(self.boards_in_group)] in the length-oriented
    branch of [wood_parquet]; the state is [cur_x], [cur_y], [bw2], [bl2]
    and the buffers. *)
Definition parquet_board_length (bl z : Q) (st : Q * Q * Q * Q * buffers)
  : Q * Q * Q * Q * buffers :=
  let '(cur_x, cur_y, bw2, bl2, s) := st in
  if Qltb cur_x (width self) && Qltb cur_y (length self) then
    let bw2 :=
      if Qltb cur_x (width self)
         && Qltb (width self) (cur_x + board_width self)
      then width self - cur_x else bw2 in
    let bl2 :=
      if Qltb cur_y (length self) && Qltb (length self) (cur_y + bl)
      then length self - cur_y else bl2 in
    let p := List.length (vs s) in
    let vs1 := append_all (vs s)
                 [(cur_x, cur_y, 0); (cur_x, cur_y, z);
                  (cur_x + bw2, cur_y, z); (cur_x + bw2, cur_y, 0)] in
    let cur_y := cur_y + bl2 in
    let vs2 := append_all vs1
                 [(cur_x, cur_y, 0); (cur_x, cur_y, z);
                  (cur_x + bw2, cur_y, z); (cur_x + bw2, cur_y, 0)] in
    let cur_y := cur_y - bl2 in
    let cur_x := cur_x + (bw2 + spacing self) in
    (cur_x, cur_y, bw2, bl2,
     {| vs := vs2;
        fs := append_all (fs s) (parquet_faces p);
        ms := append_all (ms s) (map (fun _ => 0%nat) (seq 0 6));
        draws := draws s |})
  else st.

(** Body of the [for] loop in the width-oriented branch. *)
Definition parquet_board_width (bl z : Q) (st : Q * Q * Q * Q * buffers)
  : Q * Q * Q * Q * buffers :=
  let '(cur_x, cur_y, bw2, bl2, s) := st in
  if Qltb cur_x (width self) && Qltb cur_y (length self) then
    let bl2 :=
      if Qltb cur_x (width self) && Qltb (width self) (cur_x + bl)
      then width self - cur_x else bl2 in
    let bw2 :=
      if Qltb cur_y (length self)
         && Qltb (length self) (cur_y + board_width self)
      then length self - cur_y else bw2 in
    let p := List.length (vs s) in
    let vs1 := append_all (vs s)
                 [(cur_x, cur_y + bw2, 0); (cur_x, cur_y + bw2, z);
                  (cur_x, cur_y, z); (cur_x, cur_y, 0)] in
    let cur_x := cur_x + bl2 in
    let vs2 := append_all vs1
                 [(cur_x, cur_y + bw2, 0); (cur_x, cur_y + bw2, z);
                  (cur_x, cur_y, z); (cur_x, cur_y, 0)] in
    let cur_x := cur_x - bl2 in
    let cur_y := cur_y + (bw2 + spacing self) in
    (cur_x, cur_y, bw2, bl2,
     {| vs := vs2;
        fs := append_all (fs s) (parquet_faces p);
        ms := append_all (ms s) (map (fun _ => 0%nat) (seq 0 6));
        draws := draws s |})
  else st.

(** One turn of the inner [while cur_y < self.length] of [wood_parquet];
    the state is [cur_x], [cur_y], [orient_length] and the buffers. *)
Definition wood_parquet_group (bl z : Q) (st : Q * Q * bool * buffers)
  : result (Q * Q * bool * buffers) :=
  let '(cur_x, cur_y, orient_length, s) := st in
  let bl2 := bl in
  let bw2 := board_width self in
  let n := Z.to_nat (boards_in_group self) in
  if orient_length then
    let start_x := cur_x in
    let '(cur_x, cur_y, bw2, bl2, s) :=
      for_range n (parquet_board_length bl z) (cur_x, cur_y, bw2, bl2, s) in
    let cur_x := start_x in
    let cur_y := cur_y + (bl2 + spacing self) in
    Done (cur_x, cur_y, negb orient_length, s)
  else
    let '(cur_x, cur_y, bw2, bl2, s) :=
      for_range n (parquet_board_width bl z) (cur_x, cur_y, bw2, bl2, s) in
    Done (cur_x, cur_y, negb orient_length, s).

(** One turn of the outer [while cur_x < self.width] of [wood_parquet]. *)
Definition wood_parquet_column (fuel : nat) (bl z : Q)
           (st : Q * bool * buffers) : result (Q * bool * buffers) :=
  let '(cur_x, start_orient_length, s) := st in
  let cur_y := 0 in
  let orient_length := start_orient_length in
  '(cur_x, _, _, s) <- while fuel
                         (fun st => Qltb (snd (fst (fst st))) (length self))
                         (wood_parquet_group bl z)
                         (cur_x, cur_y, orient_length, s) ;;
  Done (cur_x + (bl + spacing self), negb start_orient_length, s).

Definition wood_parquet (fuel : nat) (s : buffers) : result buffers :=
  let cur_x := 0 in
  let z := thickness self in
  let start_orient_length := true in
  let bl := (board_width self * inject_Z (boards_in_group self))
            + (spacing self * inject_Z (boards_in_group self - 1)) in
  '(_, _, s) <- while fuel (fun st => Qltb (fst (fst st)) (width self))
                     (wood_parquet_column fuel bl z)
                     (cur_x, start_orient_length, s) ;;
  Done s.

(** [update_data]: the buffers are emptied, then one style is run. *)
Definition update_data (fuel : nat) (s : buffers) : result buffers :=
  let s := {| vs := []; fs := []; ms := []; draws := draws s |} in
  match floor_material self with
  | wood =>
      match wood_styles self with
      | wood_regular_style => wood_regular fuel s
      | parquet => wood_parquet fuel s
      | _ => Done s
      end
  | tile =>
      let s := tile_grout s in
      match tile_styles self with
      | tile_regular_style => tile_regular fuel s
      | large_small => tile_large_small fuel s
      | _ => Done s
      end
  end.

End Generator.

(** The read-only properties of the object. *)
Definition verts (s : buffers) : list vertex := vs s.
Definition faces (s : buffers) : list face := fs s.
Definition uvs (s : buffers) : list (list (Q * Q)) := [].
Definition matids (s : buffers) : list nat := [].

(** The arguments of a call of [BmeshEdit.buildmesh]: [verts] and
    [faces], and the keyword arguments [matids] and [uvs] when passed. *)
Record buildmesh_call : Type := {
  bm_verts : list vertex;
  bm_faces : list face;
  bm_matids : option (list nat);
  bm_uvs : option (list (list (Q * Q)))
}.

(** [update]: nothing is done unless the active object carries this
    floor ([props_is_self]); otherwise the data is rebuilt and the mesh
    builder is called with [verts] and [faces] only.  The result is the
    buffers and the call made, if any. *)
Definition update (rnd : nat -> Q) (self : archipack_floor)
           (props_is_self : bool) (fuel : nat) (s : buffers)
  : result (buffers * option buildmesh_call) :=
  if negb props_is_self then Done (s, None)
  else
    s <- update_data rnd self fuel s ;;
    Done (s, Some {| bm_verts := verts s; bm_faces := faces s;
                     bm_matids := None; bm_uvs := None |}).

(* ------------------------------------------------------------------ *)
(** ** Vocabulary of the properties *)

Definition empty_buffers (d : nat) : buffers :=
  {| vs := []; fs := []; ms := []; draws := d |}.

(** The buffers after one box is appended. *)
Definition push_cube (x y z w l t : Q) (mat_id : nat) (s : buffers) : buffers :=
  {| vs := vs s ++ cube_vertices x y z w l t;
     fs := fs s ++ cube_faces (List.length (vs s));
     ms := ms s ++ repeat mat_id 6;
     draws := draws s |}.

(** The buffers a finished run leaves (empty ones for a run that did
    not finish). *)
Definition buffers_of (r : result buffers) : buffers :=
  match r with
  | Done s => s
  | _ => empty_buffers 0
  end.

(** Every index of a face is below [n]. *)
Definition face_ok (n : nat) (f : face) : Prop :=
  let '(a, b, c, d) := f in (a < n /\ b < n /\ c < n /\ d < n)%nat.

(** Buffers reached from the empty ones by appends only, where every
    batch carries as many material ids as faces and every face of a batch
    refers to vertices present once the batch's vertices are appended. *)
Inductive built : buffers -> Prop :=
| built_empty d : built (empty_buffers d)
| built_draw s d : built s ->
    built {| vs := vs s; fs := fs s; ms := ms s; draws := d |}
| built_append s nv nf nm :
    built s ->
    List.length nm = List.length nf ->
    Forall (face_ok (List.length (vs s ++ nv))) nf ->
    built {| vs := vs s ++ nv; fs := fs s ++ nf; ms := ms s ++ nm;
             draws := draws s |}.

(** The footprint-plane extent of a box: [x0, x1] x [y0, y1]. *)
Record rect : Type := { x0 : Q; x1 : Q; y0 : Q; y1 : Q }.

(** The boxes held by a vertex buffer, eight vertices each in the order
    [add_cube] writes them: the first is the origin corner, the last the
    opposite corner. *)
Fixpoint boxes_of (l : list vertex) : list rect :=
  match l with
  | (xa, ya, _) :: _ :: _ :: _ :: _ :: _ :: _ :: (xb, yb, _) :: rest =>
      {| x0 := xa; x1 := xb; y0 := ya; y1 := yb |} :: boxes_of rest
  | _ => []
  end.

Definition rect_in_footprint (self : archipack_floor) (r : rect) : Prop :=
  0 <= x0 r /\ x0 r <= x1 r /\ x1 r <= width self /\
  0 <= y0 r /\ y0 r <= y1 r /\ y1 r <= length self.

Definition vertex_in_footprint (self : archipack_floor) (v : vertex) : Prop :=
  let '(x, y, _) := v in
  0 <= x /\ x <= width self /\ 0 <= y /\ y <= length self.

(** The vertex buffer holds whole boxes, all within the footprint. *)
Definition footprint_ok (self : archipack_floor) (s : buffers) : Prop :=
  Nat.divide 8 (List.length (vs s)) /\
  Forall (vertex_in_footprint self) (vs s) /\
  Forall (rect_in_footprint self) (boxes_of (vs s)).

(** No vertex lies beyond the right or the top edge. *)
Definition vertex_below_edges (self : archipack_floor) (v : vertex) : Prop :=
  let '(x, y, _) := v in x <= width self /\ y <= length self.

(** The buffers begin with the mortar bed: its 8 vertices, its 6 faces
    on the vertices 0..7 and material id 1 six times; every later
    material id is 0. *)
Definition grout_first (self : archipack_floor) (s : buffers) : Prop :=
  exists v' f' m',
    vs s = cube_vertices 0 0 0 (width self) (length self)
             (thickness self - mortar_depth self) ++ v' /\
    fs s = cube_faces 0 ++ f' /\
    ms s = [1; 1; 1; 1; 1; 1]%nat ++ m' /\
    Forall (fun m => m = 0%nat) m'.

(** The widths [tile_large_small] asks [add_cube] for: a large tile's
    [tw] and a small tile's [(tw - sp) / 2]. *)
Definition requested_tile_width (self : archipack_floor) (r : rect) : Prop :=
  x1 r - x0 r == tile_width self \/
  x1 r - x0 r == (tile_width self - spacing self) / 2.

Definition area (r : rect) : Q := (x1 r - x0 r) * (y1 r - y0 r).

Definition area_sum (l : list rect) : Q :=
  fold_right (fun r acc => area r + acc) 0 l.

(** Two footprints share no interior point. *)
Definition disjoint (a b : rect) : Prop :=
  x1 a <= x0 b \/ x1 b <= x0 a \/ y1 a <= y0 b \/ y1 b <= y0 a.

(** A box that lies left of the column at [cx], or in the column of
    width [cw] at [cx] and below [cy]. *)
Definition behind (cx cw cy : Q) (r : rect) : Prop :=
  x1 r <= cx \/ (x1 r <= cx + cw /\ y1 r <= cy).

(** The boxes so far fill [0, cx] x [0, L] and the column of width [cw]
    at [cx] up to [cy], within the footprint and without overlap. *)
Definition column_tiled (self : archipack_floor) (cx cw cy : Q)
           (s : buffers) : Prop :=
  Nat.divide 8 (List.length (vs s)) /\
  (0 <= cx /\ 0 <= cy) /\
  Forall (rect_in_footprint self) (boxes_of (vs s)) /\
  Forall (behind cx cw cy) (boxes_of (vs s)) /\
  ForallOrdPairs disjoint (boxes_of (vs s)) /\
  area_sum (boxes_of (vs s)) == cx * length self + cw * cy.

(** The random source yields samples of the unit interval. *)
Definition unit_source (rnd : nat -> Q) : Prop :=
  forall i, 0 <= rnd i <= 1.

(** The ranges of section 3 of the specification: positive dimensions,
    non-negative spacings, percentages within (0, 100].  They are weaker
    than the declared limits of the properties. *)
Record in_range (p : archipack_floor) : Prop := {
  ir_width : 0 < width p;
  ir_length : 0 < length p;
  ir_spacing : 0 <= spacing p;
  ir_thickness : 0 < thickness p;
  ir_thickness_variance : 0 < thickness_variance p <= 100;
  ir_board_width : 0 < board_width p;
  ir_width_variance : 0 < width_variance p <= 100;
  ir_width_spacing : 0 <= width_spacing p;
  ir_board_length : 0 < board_length p;
  ir_length_variance : 0 < length_variance p <= 100;
  ir_max_boards : (1 <= max_boards p)%Z;
  ir_length_spacing : 0 <= length_spacing p;
  ir_boards_in_group : (1 <= boards_in_group p)%Z;
  ir_tile_width : 0 < tile_width p;
  ir_tile_length : 0 < tile_length p;
  ir_mortar_depth : 0 <= mortar_depth p;
  ir_offset : 0 < offset p <= 100;
  ir_offset_variance : 0 < offset_variance p <= 100
}.

(** A fact that holds once the properties are within their ranges and
    the samples within the unit interval. *)
Definition guarded (rnd : nat -> Q) (self : archipack_floor) (A : Prop) : Prop :=
  in_range self -> unit_source rnd -> A.

(** A box with a non-negative origin and non-negative sides. *)
Definition nonneg_box (rnd : nat -> Q) (self : archipack_floor)
           (x y w l : Q) : Prop :=
  guarded rnd self (0 <= x /\ 0 <= y /\ 0 <= w /\ 0 <= l).

(** A floor with the given material, styles, footprint, spacings and
    board and tile sizes; the other properties at their declared
    defaults. *)
Definition floor_with (m : material) (ws : wood_style) (ts : tile_style)
           (W L sp bw bl tw tl : Q) (ot ro : bool) : archipack_floor :=
  {| floor_material := m; wood_styles := ws; tile_styles := ts;
     width := W; length := L; spacing := sp;
     thickness := 1 * INCH; vary_thickness := false; thickness_variance := 50;
     board_width := bw; vary_width := false; width_variance := 50;
     width_spacing := sp;
     board_length := bl; vary_length := false; length_variance := 50;
     max_boards := 2; length_spacing := sp;
     boards_in_group := 4;
     tile_width := tw; tile_length := tl; mortar_depth := 0.25 * INCH;
     offset_tiles := ot; random_offset := ro;
     offset := 50; offset_variance := 50 |}.

(** The example of the specification: a 4 x 2 floor of 1 x 1 boards. *)
Definition example_wood : archipack_floor :=
  floor_with wood wood_regular_style tile_regular_style 4 2 0 1 1 1 1
             false false.

(** A 5 x 5 floor of 4 x 4 tiles in the large+small style. *)
Definition example_large_small : archipack_floor :=
  floor_with tile wood_regular_style large_small 5 5 0 1 1 4 4 false false.

(** A 2 x 1 floor of 1 x 1 tiles, every second row offset at random. *)
Definition example_random_offset : archipack_floor :=
  floor_with tile wood_regular_style tile_regular_style 2 1 0 1 1 1 1
             true true.


(* ------------------------------------------------------------------ *)
(** ** Vocabulary of the further properties *)

(** The buffers hold [n] boxes: 8 vertices each, the faces of box [k]
    being [pattern] over the vertices [8k .. 8k + 7], 6 material ids
    each. *)
Definition box_layout (pattern : nat -> list face) (n : nat) (s : buffers)
  : Prop :=
  List.length (vs s) = (8 * n)%nat /\
  fs s = flat_map (fun k => pattern (8 * k)%nat) (seq 0 n) /\
  List.length (ms s) = (6 * n)%nat.

(** The face pattern of the style that is run. *)
Definition face_pattern (self : archipack_floor) : nat -> list face :=
  match floor_material self, wood_styles self with
  | wood, parquet => parquet_faces
  | _, _ => cube_faces
  end.

(** A 4 x 10 floor of 1 x 1 boards of varied length, at most 3 to a
    column. *)
Definition example_varied : archipack_floor :=
  {| floor_material := wood; wood_styles := wood_regular_style;
     tile_styles := tile_regular_style;
     width := 4; length := 10; spacing := 0;
     thickness := 1 * INCH; vary_thickness := false; thickness_variance := 50;
     board_width := 1; vary_width := false; width_variance := 50;
     width_spacing := 0;
     board_length := 1; vary_length := true; length_variance := 50;
     max_boards := 3; length_spacing := 0;
     boards_in_group := 4;
     tile_width := 1; tile_length := 1; mortar_depth := 0.25 * INCH;
     offset_tiles := false; random_offset := false;
     offset := 50; offset_variance := 50 |}.

(** A 5 x 3 floor in the parquet style: groups of 2 boards of width 1,
    spaced by 0.5. *)
Definition example_parquet : archipack_floor :=
  {| floor_material := wood; wood_styles := parquet;
     tile_styles := tile_regular_style;
     width := 5; length := 3; spacing := 0.5;
     thickness := 1 * INCH; vary_thickness := false; thickness_variance := 50;
     board_width := 1; vary_width := false; width_variance := 50;
     width_spacing := 0;
     board_length := 1; vary_length := false; length_variance := 50;
     max_boards := 2; length_spacing := 0;
     boards_in_group := 2;
     tile_width := 1; tile_length := 1; mortar_depth := 0.25 * INCH;
     offset_tiles := false; random_offset := false;
     offset := 50; offset_variance := 50 |}.

(** The state of the board loop of a length-oriented parquet group at
    height [cy]: the cursor and the sides are not negative, the width is
    the board's unless the cursor has left the floor, and the length is
    the group's unless it was cut to end at [L]. *)
Definition length_boards_ok (self : archipack_floor) (bl : Q)
           (st : Q * Q * Q * Q * buffers) : Prop :=
  let '(x, y, bw2, bl2, _) := st in
  0 <= x /\ 0 <= y /\ 0 <= bw2 /\ 0 <= bl2 /\
  (bw2 == board_width self \/ width self <= x) /\
  (bl2 == bl \/ y + bl2 == length self).

(** The same for a width-oriented group. *)
Definition width_boards_ok (self : archipack_floor) (bl : Q)
           (st : Q * Q * Q * Q * buffers) : Prop :=
  let '(x, y, bw2, bl2, _) := st in
  0 <= x /\ 0 <= y /\ 0 <= bw2 /\ 0 <= bl2 /\
  (bw2 == board_width self \/ length self <= y) /\
  (bl2 == bl \/ x + bl2 == width self).

(** Every vertex of the buffers lies in the footprint. *)
Definition all_in_footprint (self : archipack_floor) (b : buffers) : Prop :=
  Forall (vertex_in_footprint self) (vs b).




(** The vertices of boxes that stand on [z = 0]: the box
    [(x, y, w, l, t)] gives the 8 vertices of [cube_vertices x y 0 w l t],
    four corners at height [0] and, above each of them, a corner at height
    [0 + t]. *)
Definition standing_boxes (boxes : list (Q * Q * Q * Q * Q)) : list vertex :=
  flat_map (fun '(x, y, w, l, t) => cube_vertices x y 0 w l t) boxes.


(** The vertex buffer is that of boxes that stand on [z = 0], the
    thickness [t] of each of them satisfying [T]. *)
Definition board_tops (T : Q -> Prop) (s : buffers) : Prop :=
  exists boards,
    vs s = standing_boxes boards /\ Forall (fun b => T (snd b)) boards.


(* ------------------------------------------------------------------ *)
(** ** Basic facts: comparisons, buffers, loops *)

Lemma Qltb_lt (a b : Q) : Qltb a b = true <-> a < b.
Proof.
  unfold Qltb. rewrite negb_true_iff.
  split; intro H.
  - apply Qnot_le_lt. intro Hle. apply Qle_bool_iff in Hle. congruence.
  - destruct (Qle_bool b a) eqn:E; [|reflexivity].
    apply Qle_bool_iff in E. exfalso. apply (Qlt_not_le _ _ H E).
Qed.

Lemma Qltb_ge (a b : Q) : Qltb a b = false <-> b <= a.
Proof.
  unfold Qltb. rewrite negb_false_iff. apply Qle_bool_iff.
Qed.

Lemma Qgeb_ge (a b : Q) : Qgeb a b = true <-> b <= a.
Proof. unfold Qgeb. apply Qle_bool_iff. Qed.

Lemma Qgeb_lt (a b : Q) : Qgeb a b = false <-> a < b.
Proof.
  unfold Qgeb. rewrite <- (Qltb_lt a b). unfold Qltb.
  destruct (Qle_bool b a); simpl; intuition congruence.
Qed.

Lemma Qgtb_gt (a b : Q) : Qgtb a b = true <-> b < a.
Proof. unfold Qgtb. apply Qltb_lt. Qed.

Lemma Qgtb_le (a b : Q) : Qgtb a b = false <-> a <= b.
Proof. unfold Qgtb. apply Qltb_ge. Qed.


Lemma append_all_app {A : Type} (l add : list A) : append_all l add = l ++ add.
Proof.
  unfold append_all. revert l.
  induction add as [|a add IH]; intro l; simpl.
  - now rewrite app_nil_r.
  - rewrite IH, <- app_assoc. reflexivity.
Qed.

Lemma add_cube_skip self x y z w l t m s :
  width self <= x \/ length self <= y ->
  add_cube self x y z w l t true m s = s.
Proof.
  intros H. unfold add_cube. simpl.
  destruct (Qgeb x (width self)) eqn:Ex; [reflexivity|].
  destruct (Qgeb y (length self)) eqn:Ey; [reflexivity|].
  apply Qgeb_lt in Ex, Ey. destruct H as [H|H]; exfalso; lra.
Qed.

Lemma add_cube_push self x y z w l t m s :
  x < width self -> y < length self ->
  add_cube self x y z w l t true m s =
  push_cube x y z
    (if Qgtb (x + w) (width self) then width self - x else w)
    (if Qgtb (y + l) (length self) then length self - y else l)
    t m s.
Proof.
  intros Hx Hy. unfold add_cube. cbn [andb].
  apply Qgeb_lt in Hx, Hy. rewrite Hx, Hy. cbn [andb orb].
  unfold push_cube. rewrite !append_all_app. reflexivity.
Qed.

(** C1. [add_cube] with [clip] on: a box whose origin has [x >= W] or
    [y >= L] leaves the three buffers as they are; any other box appends
    exactly the 8 corners of [x, x+w'] x [y, y+l'] x [z, z+t], 6 quads
    over these 8 vertices and 6 copies of the material id, where [w'] is
    [W - x] when [x + w > W] and [w] otherwise, [l'] is [L - y] when
    [y + l > L] and [l] otherwise, and [t] is used as given. *)
Theorem add_cube_clip_spec self x y z w l t m s :
  let W := width self in
  let L := length self in
  (W <= x \/ L <= y -> add_cube self x y z w l t true m s = s) /\
  (x < W -> y < L ->
   exists w' l',
     (W < x + w -> w' = W - x) /\ (x + w <= W -> w' = w) /\
     (L < y + l -> l' = L - y) /\ (y + l <= L -> l' = l) /\
     let p := List.length (vs s) in
     let s' := add_cube self x y z w l t true m s in
     vs s' = vs s ++
       [(x, y, z); (x, y, z + t); (x + w', y, z); (x + w', y, z + t);
        (x, y + l', z); (x, y + l', z + t);
        (x + w', y + l', z); (x + w', y + l', z + t)] /\
     fs s' = fs s ++
       [(p, p + 2, p + 3, p + 1); (p + 2, p + 6, p + 7, p + 3);
        (p + 1, p + 3, p + 7, p + 5); (p + 6, p + 4, p + 5, p + 7);
        (p, p + 1, p + 5, p + 4); (p, p + 4, p + 6, p + 2)]%nat /\
     ms s' = ms s ++ [m; m; m; m; m; m] /\
     draws s' = draws s).
Proof.
  intros W L. split.
  - apply add_cube_skip.
  - intros Hx Hy.
    exists (if Qgtb (x + w) W then W - x else w),
           (if Qgtb (y + l) L then L - y else l).
    rewrite (add_cube_push self x y z w l t m s Hx Hy). fold W L.
    repeat split; try reflexivity.
    + intro H. apply Qgtb_gt in H. now rewrite H.
    + intro H. apply Qgtb_le in H. now rewrite H.
    + intro H. apply Qgtb_gt in H. now rewrite H.
    + intro H. apply Qgtb_le in H. now rewrite H.
Qed.

Lemma bind_Done {A B : Type} (m : result A) (k : A -> result B) (b : B) :
  bind m k = Done b -> exists a, m = Done a /\ k a = Done b.
Proof.
  destruct m as [a| |]; simpl; intro H; try discriminate.
  exists a. split; [reflexivity|assumption].
Qed.

(** A property kept by every turn of a loop holds when the loop ends, and
    the loop ends with its test false. *)
Lemma while_inv {T : Type} (I : T -> Prop) (cond : T -> bool)
      (body : T -> result T) :
  (forall s s', I s -> cond s = true -> body s = Done s' -> I s') ->
  forall fuel s s',
    I s -> while fuel cond body s = Done s' -> I s' /\ cond s' = false.
Proof.
  intros Hstep fuel. induction fuel as [|n IH]; intros s s' Hs Hrun; simpl in Hrun.
  - destruct (cond s) eqn:E; [discriminate|].
    injection Hrun as <-. split; assumption.
  - destruct (cond s) eqn:E.
    + apply bind_Done in Hrun. destruct Hrun as (s1 & Hb & Hrest).
      apply (IH s1 s'); [|assumption]. apply (Hstep s s1); assumption.
    + injection Hrun as <-. split; assumption.
Qed.

Lemma for_range_inv {T : Type} (I : T -> Prop) (body : T -> T) :
  (forall s, I s -> I (body s)) ->
  forall n s, I s -> I (for_range n body s).
Proof.
  intros Hstep n. induction n as [|n IH]; intros s Hs; simpl.
  - assumption.
  - apply IH, Hstep, Hs.
Qed.

(** More fuel does not change the outcome of a loop that ended. *)
Lemma while_mono {T : Type} (cond : T -> bool) (body1 body2 : T -> result T) :
  (forall s r, body1 s = Done r -> body2 s = Done r) ->
  forall n m s r, (n <= m)%nat ->
    while n cond body1 s = Done r -> while m cond body2 s = Done r.
Proof.
  intros Hb n. induction n as [|n IH]; intros m s r Hnm Hrun.
  - simpl in Hrun. destruct (cond s) eqn:E; [discriminate|].
    destruct m; simpl; rewrite E; assumption.
  - destruct m as [|m]; [lia|]. simpl in *.
    destruct (cond s); [|assumption].
    apply bind_Done in Hrun. destruct Hrun as (s1 & H1 & H2).
    rewrite (Hb _ _ H1). simpl. apply IH; [lia|assumption].
Qed.

Lemma bind_mono {A B : Type} (m1 m2 : result A) (k : A -> result B) (b : B) :
  (forall a, m1 = Done a -> m2 = Done a) ->
  bind m1 k = Done b -> bind m2 k = Done b.
Proof.
  intros H Hrun. apply bind_Done in Hrun. destruct Hrun as (a & Ha & Hk).
  rewrite (H a Ha). exact Hk.
Qed.

Lemma wood_regular_mono rnd self n m s r :
  (n <= m)%nat ->
  wood_regular rnd self n s = Done r -> wood_regular rnd self m s = Done r.
Proof.
  intros Hnm. unfold wood_regular. apply bind_mono. intro a.
  apply while_mono; [|assumption].
  intros [cur_x b] r1. unfold wood_regular_column.
  destruct (if vary_width self then _ else _) as [bw2 b1].
  apply bind_mono. intro a1. apply while_mono; auto.
Qed.

Lemma tile_regular_mono rnd self n m s r :
  (n <= m)%nat ->
  tile_regular rnd self n s = Done r -> tile_regular rnd self m s = Done r.
Proof.
  intros Hnm. unfold tile_regular.
  destruct (pydiv 100 (offset self)) as [d| |]; simpl; try discriminate.
  destruct (pydiv 1 d) as [o| |]; simpl; try discriminate.
  apply bind_mono. intro a.
  apply while_mono; [|assumption].
  intros [[cur_y off] b] r1. unfold tile_regular_row.
  apply bind_mono. intro a1. apply while_mono; auto.
Qed.

Lemma tile_large_small_mono self n m s r :
  (n <= m)%nat ->
  tile_large_small self n s = Done r -> tile_large_small self m s = Done r.
Proof.
  intros Hnm. unfold tile_large_small. apply bind_mono. intro a.
  apply while_mono; [|assumption].
  intros [[[cur_y pre_y] row] b] r1. unfold tile_large_small_row.
  apply bind_mono. intro a1. apply while_mono; auto.
Qed.

Lemma wood_parquet_mono self n m s r :
  (n <= m)%nat ->
  wood_parquet self n s = Done r -> wood_parquet self m s = Done r.
Proof.
  intros Hnm. unfold wood_parquet. apply bind_mono. intro a.
  apply while_mono; [|assumption].
  intros [[cur_x o] b] r1. unfold wood_parquet_column.
  apply bind_mono. intro a1. apply while_mono; auto.
Qed.

Lemma update_data_mono rnd self n m s r :
  (n <= m)%nat ->
  update_data rnd self n s = Done r -> update_data rnd self m s = Done r.
Proof.
  intros Hnm. unfold update_data.
  destruct (floor_material self).
  - destruct (wood_styles self);
      eauto using wood_regular_mono, wood_parquet_mono.
  - destruct (tile_styles self);
      eauto using tile_regular_mono, tile_large_small_mono.
Qed.

(** *** Append-only construction *)






Lemma add_cube_cases self x y z w l t clip m s :
  add_cube self x y z w l t clip m s = s \/
  exists w' l', add_cube self x y z w l t clip m s = push_cube x y z w' l' t m s.
Proof.
  unfold add_cube.
  destruct (clip && (Qgeb x (width self) || Qgeb y (length self))); [now left|].
  right. eexists _, _. unfold push_cube. rewrite !append_all_app. reflexivity.
Qed.


Lemma built_uniform rnd a b s : built s -> built (snd (uniform rnd a b s)).
Proof. intro H. unfold uniform. simpl. now apply built_draw. Qed.

Lemma add_cube_clip_witness :
  add_cube example_wood 4 0 0 1 1 1 true 0 (empty_buffers 0) = empty_buffers 0 /\
  vs (add_cube example_wood 3 1 0 5 5 1 true 0 (empty_buffers 0)) =
    [(3, 1, 0); (3, 1, 0 + 1); (3 + (4 - 3), 1, 0); (3 + (4 - 3), 1, 0 + 1);
     (3, 1 + (2 - 1), 0); (3, 1 + (2 - 1), 0 + 1);
     (3 + (4 - 3), 1 + (2 - 1), 0); (3 + (4 - 3), 1 + (2 - 1), 0 + 1)].
Proof.
  split.
  - apply (add_cube_clip_spec example_wood 4 0 0 1 1 1 0 (empty_buffers 0)).
    left. vm_compute. discriminate.
  - destruct (add_cube_clip_spec example_wood 3 1 0 5 5 1 0 (empty_buffers 0))
      as [_ H].
    destruct H as (w' & l' & Hw & _ & Hl & _ & Hv & _);
      [reflexivity | reflexivity |].
    rewrite Hv, Hw, Hl; reflexivity.
Defined.

(** *** Samples and variance bands *)

Lemma uniform_between rnd a b s :
  unit_source rnd -> a <= b ->
  a <= fst (uniform rnd a b s) /\ fst (uniform rnd a b s) <= b.
Proof.
  intros Hu Hab. unfold uniform. simpl.
  destruct (Hu (draws s)) as [H0 H1].
  assert (0 <= (b - a) * rnd (draws s)) by (apply Qmult_le_0_compat; lra).
  assert ((b - a) * rnd (draws s) <= (b - a) * 1).
  { rewrite (Qmult_comm (b - a)), (Qmult_comm (b - a) 1).
    apply Qmult_le_compat_r; lra. }
  lra.
Qed.

(** The band [nominal * (percent / 100) * 0.99] of a positive nominal
    value stays below the nominal value. *)
Lemma variance_band (n pc : Q) :
  0 < n -> 0 < pc <= 100 ->
  0 <= n * (pc / 100) * 0.99 /\ n * (pc / 100) * 0.99 <= 0.99 * n.
Proof.
  intros Hn [H0 H1].
  assert (E : n * (pc / 100) * 0.99 == 0.99 * n * (pc / 100)) by (field).
  rewrite E.
  assert (Hp : 0 <= pc / 100 /\ pc / 100 <= 1).
  { unfold Qdiv. change (/ 100) with 0.01. split; lra. }
  destruct Hp as [Hp0 Hp1].
  split.
  - apply Qmult_le_0_compat; lra.
  - assert (0.99 * n * (pc / 100) <= 0.99 * n * 1).
    { rewrite !(Qmult_comm (0.99 * n)). apply Qmult_le_compat_r; lra. }
    lra.
Qed.

(** *** Properties of the buffers kept by the regular sweeps

    [P] is kept by the sweep as soon as it is kept by a random draw and by
    every [add_cube] the sweep makes; within the ranges, and with samples
    of the unit interval, these boxes have a non-negative origin and
    non-negative sides. *)
Section RegularSweeps.

Variable rnd : nat -> Q.
Variable self : archipack_floor.
Variable P : buffers -> Prop.

Hypothesis P_draw : forall s d,
  P s -> P {| vs := vs s; fs := fs s; ms := ms s; draws := d |}.
Hypothesis P_add_cube : forall x y z w l t s,
  nonneg_box rnd self x y w l -> P s -> P (add_cube self x y z w l t true 0 s).

Lemma wood_regular_board_keeps cur_x bw2 st st' :
  guarded rnd self (0 <= cur_x /\ 0 <= bw2) ->
  guarded rnd self (0 <= fst (fst st)) /\ P (snd st) ->
  Qltb (fst (fst st)) (length self) = true ->
  wood_regular_board rnd self cur_x bw2 st = Done st' ->
  guarded rnd self (0 <= fst (fst st')) /\ P (snd st').
Proof.
  destruct st as [[cur_y counter] s]. simpl.
  intros Hx [Hy Hs] Hc Hrun. apply Qltb_lt in Hc.
  unfold wood_regular_board in Hrun.
  set (zs := if vary_thickness self then _ else _) in Hrun.
  assert (Hzs : P (snd zs)).
  { subst zs. destruct (vary_thickness self); simpl; [apply P_draw|]; assumption. }
  destruct zs as [z s1]. simpl in Hzs.
  set (ls := if vary_length self then _ else _) in Hrun.
  assert (Hls : P (snd ls) /\ guarded rnd self (0 <= fst ls)).
  { subst ls. destruct (vary_length self); simpl.
    - split; [now apply P_draw|]. intros Hr Hu.
      destruct (variance_band (board_length self) (length_variance self))
        as [Hv0 Hv1]; [apply Hr | apply Hr |].
      set (v := board_length self * (length_variance self / 100) * 0.99) in *.
      pose proof (uniform_between rnd (board_length self - v)
                    (board_length self + v) s1 Hu) as Hb.
      unfold uniform in Hb. simpl in Hb.
      pose proof (ir_board_length _ Hr). lra.
    - split; [assumption|]. intros Hr _. pose proof (ir_board_length _ Hr). lra. }
  destruct ls as [bl2 s2]. simpl in Hls. destruct Hls as [Hs2 Hbl2].
  injection Hrun as <-. simpl.
  set (bl3 := if (_ : bool) then length self - cur_y else bl2).
  assert (Hbl3 : guarded rnd self (0 <= bl3)).
  { intros Hr Hu. subst bl3. destruct (_ || _); [lra|]. now apply Hbl2. }
  split.
  - intros Hr Hu. specialize (Hy Hr Hu). specialize (Hbl3 Hr Hu).
    pose proof (ir_length_spacing _ Hr). lra.
  - apply P_add_cube; [|assumption].
    intros Hr Hu. destruct (Hx Hr Hu). specialize (Hy Hr Hu).
    specialize (Hbl3 Hr Hu). auto.
Qed.

Lemma wood_regular_column_keeps fuel st st' :
  guarded rnd self (0 <= fst st) /\ P (snd st) ->
  Qltb (fst st) (width self) = true ->
  wood_regular_column rnd self fuel st = Done st' ->
  guarded rnd self (0 <= fst st') /\ P (snd st').
Proof.
  destruct st as [cur_x s]. simpl.
  intros [Hx Hs] Hc Hrun. apply Qltb_lt in Hc.
  unfold wood_regular_column in Hrun.
  set (ws := if vary_width self then _ else _) in Hrun.
  assert (Hws : P (snd ws) /\ guarded rnd self (0 <= fst ws)).
  { subst ws. destruct (vary_width self); simpl.
    - split; [now apply P_draw|]. intros Hr Hu.
      destruct (variance_band (board_width self) (width_variance self))
        as [Hv0 Hv1]; [apply Hr | apply Hr |].
      set (v := board_width self * (width_variance self / 100) * 0.99) in *.
      pose proof (uniform_between rnd (board_width self - v)
                    (board_width self + v) s Hu) as Hb.
      unfold uniform in Hb. simpl in Hb.
      pose proof (ir_board_width _ Hr). lra.
    - split; [assumption|]. intros Hr _. pose proof (ir_board_width _ Hr). lra. }
  destruct ws as [bw2 s1]. simpl in Hws. destruct Hws as [Hs1 Hbw2].
  set (bw3 := if (_ : bool) then width self - cur_x else bw2) in Hrun.
  assert (Hbw3 : guarded rnd self (0 <= bw3)).
  { intros Hr Hu. subst bw3. destruct (Qgtb _ _); [lra|]. now apply Hbw2. }
  apply bind_Done in Hrun. destruct Hrun as ([[cy cnt] s2] & Hloop & Hret).
  injection Hret as <-.
  apply (while_inv (fun st => guarded rnd self (0 <= fst (fst st)) /\ P (snd st)))
    in Hloop.
  - simpl in Hloop. destruct Hloop as [[_ Hs2] _]. split; [|assumption].
    intros Hr Hu. specialize (Hx Hr Hu). specialize (Hbw3 Hr Hu).
    pose proof (ir_width_spacing _ Hr). simpl. lra.
  - intros a a' Ha Hca Hba.
    apply (wood_regular_board_keeps cur_x bw3 a a'); try assumption.
    intros Hr Hu. split; [now apply Hx | now apply Hbw3].
  - simpl. split; [|assumption]. intros _ _. lra.
Qed.

Lemma wood_regular_keeps fuel s s' :
  P s -> wood_regular rnd self fuel s = Done s' -> P s'.
Proof.
  intros Hs Hrun. unfold wood_regular in Hrun.
  apply bind_Done in Hrun. destruct Hrun as ([cx s1] & Hloop & Hret).
  injection Hret as <-.
  apply (while_inv (fun st => guarded rnd self (0 <= fst st) /\ P (snd st))) in Hloop.
  - apply Hloop.
  - intros a a' Ha Hca Hba.
    apply (wood_regular_column_keeps fuel a a'); assumption.
  - simpl. split; [|assumption]. intros _ _. lra.
Qed.

Lemma offset_band (n pc : Q) :
  0 < n -> 0 < pc <= 100 ->
  0 <= n * 0.0049 * pc /\ n * 0.0049 * pc <= 0.49 * n.
Proof.
  intros Hn [H0 H1].
  assert (E : n * 0.0049 * pc == 0.0049 * n * pc) by ring.
  rewrite E. split.
  - apply Qmult_le_0_compat; lra.
  - assert (0.0049 * n * pc <= 0.0049 * n * 100).
    { rewrite !(Qmult_comm (0.0049 * n)). apply Qmult_le_compat_r; lra. }
    lra.
Qed.

Lemma tile_regular_cell_keeps o z cur_y tl2 off st st' :
  guarded rnd self (0 <= o /\ 0 <= cur_y /\ 0 <= tl2) ->
  guarded rnd self (0 <= fst st) /\ P (snd st) ->
  Qltb (fst st) (width self) = true ->
  tile_regular_cell rnd self o z cur_y tl2 off st = Done st' ->
  guarded rnd self (0 <= fst st') /\ P (snd st').
Proof.
  destruct st as [cur_x s]. simpl.
  intros Hg [Hx Hs] Hc Hrun. apply Qltb_lt in Hc.
  unfold tile_regular_cell in Hrun.
  set (ws := if (_ : bool) then (width self - cur_x, s) else _) in Hrun.
  assert (Hws : P (snd ws) /\ guarded rnd self (0 <= fst ws)).
  { subst ws.
    destruct (Qltb cur_x (width self) && _); simpl.
    { split; [assumption|]. intros _ _. lra. }
    destruct (Qeq_bool cur_x 0 && off && offset_tiles self && _); simpl.
    { split; [assumption|]. intros Hr Hu. destruct (Hg Hr Hu) as (Ho & _).
      apply Qmult_le_0_compat; [|assumption].
      pose proof (ir_tile_width _ Hr). lra. }
    destruct (Qeq_bool cur_x 0 && offset_tiles self && random_offset self); simpl.
    - split; [now apply P_draw|]. intros Hr Hu.
      destruct (offset_band (tile_length self) (offset_variance self))
        as [Hv0 Hv1]; [apply Hr | apply Hr |].
      set (v := tile_length self * 0.0049 * offset_variance self) in *.
      pose proof (uniform_between rnd (tile_length self / 2 - v)
                    (tile_length self / 2 + v) s Hu) as Hb.
      unfold uniform in Hb. simpl in Hb.
      pose proof (ir_tile_length _ Hr).
      assert (E : tile_length self / 2 == 0.5 * tile_length self) by field.
      rewrite E in *. lra.
    - split; [assumption|]. intros Hr _. pose proof (ir_tile_width _ Hr). lra. }
  destruct ws as [tw2 s1]. simpl in Hws. destruct Hws as [Hs1 Htw2].
  injection Hrun as <-. simpl. split.
  - intros Hr Hu. specialize (Hx Hr Hu). specialize (Htw2 Hr Hu).
    pose proof (ir_spacing _ Hr). lra.
  - apply P_add_cube; [|assumption].
    intros Hr Hu. destruct (Hg Hr Hu) as (_ & Hy & Hl).
    specialize (Hx Hr Hu). specialize (Htw2 Hr Hu). auto.
Qed.

Lemma tile_regular_row_keeps fuel o z st st' :
  guarded rnd self (0 <= o) ->
  guarded rnd self (0 <= fst (fst st)) /\ P (snd st) ->
  Qltb (fst (fst st)) (length self) = true ->
  tile_regular_row rnd self fuel o z st = Done st' ->
  guarded rnd self (0 <= fst (fst st')) /\ P (snd st').
Proof.
  destruct st as [[cur_y off] s]. simpl.
  intros Ho [Hy Hs] Hc Hrun. apply Qltb_lt in Hc.
  unfold tile_regular_row in Hrun.
  set (tl2 := if (_ : bool) then length self - cur_y else tile_length self)
    in Hrun.
  assert (Htl2 : guarded rnd self (0 <= tl2)).
  { intros Hr Hu. subst tl2. destruct (_ && _); [lra|].
    pose proof (ir_tile_length _ Hr). lra. }
  apply bind_Done in Hrun. destruct Hrun as ([cx s1] & Hloop & Hret).
  injection Hret as <-.
  apply (while_inv (fun st => guarded rnd self (0 <= fst st) /\ P (snd st))) in Hloop.
  - simpl in Hloop. destruct Hloop as [[_ Hs1] _]. split; [|assumption].
    intros Hr Hu. specialize (Hy Hr Hu). specialize (Htl2 Hr Hu).
    pose proof (ir_spacing _ Hr). simpl. lra.
  - intros a a' Ha Hca Hba.
    apply (tile_regular_cell_keeps o z cur_y tl2 off a a'); try assumption.
    intros Hr Hu. repeat split; [now apply Ho | now apply Hy | now apply Htl2].
  - simpl. split; [|assumption]. intros _ _. lra.
Qed.

Lemma pydiv_Done a b q : pydiv a b = Done q -> ~ b == 0 /\ q = a / b.
Proof.
  unfold pydiv. destruct (Qeq_bool b 0) eqn:E; [discriminate|].
  intro H. injection H as <-. split; [|reflexivity].
  now apply Qeq_bool_neq.
Qed.

Lemma tile_regular_keeps fuel s s' :
  P s -> tile_regular rnd self fuel s = Done s' -> P s'.
Proof.
  intros Hs Hrun. unfold tile_regular in Hrun.
  apply bind_Done in Hrun. destruct Hrun as (d & Hd & Hrun).
  apply bind_Done in Hrun. destruct Hrun as (o & Ho & Hrun).
  apply bind_Done in Hrun. destruct Hrun as ([[cy off] s1] & Hloop & Hret).
  injection Hret as <-.
  apply pydiv_Done in Hd, Ho. destruct Hd as [Hd0 ->]. destruct Ho as [Ho0 ->].
  apply (while_inv (fun st => guarded rnd self (0 <= fst (fst st)) /\ P (snd st)))
    in Hloop.
  - apply Hloop.
  - intros a a' Ha Hca Hba.
    apply (tile_regular_row_keeps fuel (1 / (100 / offset self))
             (thickness self) a a'); try assumption.
    intros Hr _. destruct (ir_offset _ Hr) as [Hpos _].
    apply Qlt_le_weak. apply Qlt_shift_div_l.
    + apply Qlt_shift_div_l; [assumption|lra].
    + lra.
  - simpl. split; [|assumption]. intros _ _. lra.
Qed.

End RegularSweeps.

(** *** Properties of the buffers kept by the other two sweeps *)
Section OtherSweeps.

Variable self : archipack_floor.
Variable P : buffers -> Prop.

Hypothesis P_add_cube : forall x y z w l t s,
  P s -> P (add_cube self x y z w l t true 0 s).
Hypothesis P_board : forall nv s,
  List.length nv = 8%nat -> P s ->
  P {| vs := vs s ++ nv;
       fs := fs s ++ parquet_faces (List.length (vs s));
       ms := ms s ++ repeat 0%nat 6;
       draws := draws s |}.

Lemma tile_large_small_cell_keeps row st st' :
  P (snd st) -> tile_large_small_cell self row st = Done st' -> P (snd st').
Proof.
  destruct st as [[[cur_x cur_y] step_back] s]. simpl.
  intros Hs Hrun. unfold tile_large_small_cell in Hrun.
  destruct ((row =? 0)%Z || (row =? 1)%Z).
  - destruct step_back; injection Hrun as <-; simpl;
      apply P_add_cube; destruct (Qltb cur_y 0); now apply P_add_cube.
  - destruct (Qeq_bool cur_x 0); injection Hrun as <-; simpl;
      repeat apply P_add_cube; assumption.
Qed.

Lemma tile_large_small_row_keeps fuel st st' :
  P (snd st) -> tile_large_small_row self fuel st = Done st' -> P (snd st').
Proof.
  destruct st as [[[cur_y pre_y] row] s]. simpl.
  intros Hs Hrun. unfold tile_large_small_row in Hrun.
  apply bind_Done in Hrun.
  destruct Hrun as ([[[cx cy] sb] s1] & Hloop & Hret).
  injection Hret as <-. simpl.
  apply (while_inv (fun st => P (snd st))) in Hloop.
  - apply Hloop.
  - intros a a' Ha _ Hba. now apply (tile_large_small_cell_keeps row a a').
  - assumption.
Qed.

Lemma tile_large_small_keeps fuel s s' :
  P s -> tile_large_small self fuel s = Done s' -> P s'.
Proof.
  intros Hs Hrun. unfold tile_large_small in Hrun.
  apply bind_Done in Hrun.
  destruct Hrun as ([[[cy py] row] s1] & Hloop & Hret).
  injection Hret as <-.
  apply (while_inv (fun st => P (snd st))) in Hloop.
  - apply Hloop.
  - intros a a' Ha _ Hba. now apply (tile_large_small_row_keeps fuel a a').
  - assumption.
Qed.

Lemma parquet_board_length_keeps bl z st :
  P (snd st) -> P (snd (parquet_board_length self bl z st)).
Proof.
  destruct st as [[[[cur_x cur_y] bw2] bl2] s]. simpl. intro Hs.
  destruct (Qltb cur_x (width self) && Qltb cur_y (length self)); [|assumption].
  simpl. rewrite !append_all_app, <- app_assoc.
  apply P_board; [reflexivity|assumption].
Qed.

Lemma parquet_board_width_keeps bl z st :
  P (snd st) -> P (snd (parquet_board_width self bl z st)).
Proof.
  destruct st as [[[[cur_x cur_y] bw2] bl2] s]. simpl. intro Hs.
  destruct (Qltb cur_x (width self) && Qltb cur_y (length self)); [|assumption].
  simpl. rewrite !append_all_app, <- app_assoc.
  apply P_board; [reflexivity|assumption].
Qed.

Lemma wood_parquet_group_keeps bl z st st' :
  P (snd st) -> wood_parquet_group self bl z st = Done st' -> P (snd st').
Proof.
  destruct st as [[[cur_x cur_y] orient] s]. simpl.
  intros Hs Hrun. unfold wood_parquet_group in Hrun.
  destruct orient.
  - pose proof (for_range_inv (fun st => P (snd st))
                  (parquet_board_length self bl z)
                  (parquet_board_length_keeps bl z)
                  (Z.to_nat (boards_in_group self))
                  (cur_x, cur_y, board_width self, bl, s) Hs) as H.
    destruct (for_range _ _ _) as [[[[a b] c] d] s1].
    injection Hrun as <-. exact H.
  - pose proof (for_range_inv (fun st => P (snd st))
                  (parquet_board_width self bl z)
                  (parquet_board_width_keeps bl z)
                  (Z.to_nat (boards_in_group self))
                  (cur_x, cur_y, board_width self, bl, s) Hs) as H.
    destruct (for_range _ _ _) as [[[[a b] c] d] s1].
    injection Hrun as <-. exact H.
Qed.

Lemma wood_parquet_column_keeps fuel bl z st st' :
  P (snd st) -> wood_parquet_column self fuel bl z st = Done st' -> P (snd st').
Proof.
  destruct st as [[cur_x orient] s]. simpl.
  intros Hs Hrun. unfold wood_parquet_column in Hrun.
  apply bind_Done in Hrun.
  destruct Hrun as ([[[cx cy] o] s1] & Hloop & Hret).
  injection Hret as <-. simpl.
  apply (while_inv (fun st => P (snd st))) in Hloop.
  - apply Hloop.
  - intros a a' Ha _ Hba. now apply (wood_parquet_group_keeps bl z a a').
  - assumption.
Qed.

Lemma wood_parquet_keeps fuel s s' :
  P s -> wood_parquet self fuel s = Done s' -> P s'.
Proof.
  intros Hs Hrun. unfold wood_parquet in Hrun.
  apply bind_Done in Hrun.
  destruct Hrun as ([[cx o] s1] & Hloop & Hret).
  injection Hret as <-.
  apply (while_inv (fun st => P (snd st))) in Hloop.
  - apply Hloop.
  - intros a a' Ha _ Hba.
    eapply wood_parquet_column_keeps; eassumption.
  - assumption.
Qed.

End OtherSweeps.

(** *** Boxes of a vertex buffer *)

Lemma boxes_of_app (l1 l2 : list vertex) :
  Nat.divide 8 (List.length l1) ->
  boxes_of (l1 ++ l2) = boxes_of l1 ++ boxes_of l2.
Proof.
  intros [k Hk]. revert l1 Hk.
  induction k as [|k IH]; intros l1 Hk.
  - destruct l1; [reflexivity|discriminate].
  - destruct l1 as [|v0 [|v1 [|v2 [|v3 [|v4 [|v5 [|v6 [|v7 l1]]]]]]]];
      simpl in Hk; try lia.
    destruct v0 as [[xa ya] za], v7 as [[xb yb] zb]. simpl.
    f_equal. apply IH. lia.
Qed.

Lemma boxes_of_cube x y z w l t :
  boxes_of (cube_vertices x y z w l t) =
  [{| x0 := x; x1 := x + w; y0 := y; y1 := y + l |}].
Proof. reflexivity. Qed.

Lemma boxes_of_push x y z w l t m s :
  Nat.divide 8 (List.length (vs s)) ->
  boxes_of (vs (push_cube x y z w l t m s)) =
  boxes_of (vs s) ++ [{| x0 := x; x1 := x + w; y0 := y; y1 := y + l |}].
Proof.
  intro H. simpl. rewrite (boxes_of_app _ _ H). reflexivity.
Qed.

Lemma divide8_push x y z w l t m s :
  Nat.divide 8 (List.length (vs s)) ->
  Nat.divide 8 (List.length (vs (push_cube x y z w l t m s))).
Proof.
  intros [k Hk]. exists (S k). simpl. rewrite length_app, Hk. simpl. lia.
Qed.

(** The width and the length a clipped box ends up with. *)
Lemma clipped_side (bound x w : Q) :
  x < bound -> 0 <= w ->
  let w' := if Qgtb (x + w) bound then bound - x else w in
  0 <= w' /\ x + w' <= bound /\ w' <= w.
Proof.
  intros Hx Hw. simpl. destruct (Qgtb (x + w) bound) eqn:E.
  - apply Qgtb_gt in E. repeat split; lra.
  - apply Qgtb_le in E. repeat split; lra.
Qed.

Lemma clipped_upper (bound x w : Q) :
  x < bound ->
  x + (if Qgtb (x + w) bound then bound - x else w) <= bound.
Proof.
  intros Hx. destruct (Qgtb (x + w) bound) eqn:E.
  - lra.
  - now apply Qgtb_le in E.
Qed.

(** *** Termination of a sweep *)

Lemma archimedean (a d : Q) :
  0 < d -> exists n : nat, a <= inject_Z (Z.of_nat n) * d.
Proof.
  intro Hd. exists (Z.to_nat (Qceiling (a / d))).
  assert (Ha : a == (a / d) * d)
    by (field; apply Qnot_eq_sym, Qlt_not_eq, Hd).
  rewrite Ha at 1. apply Qmult_le_compat_r; [|apply Qlt_le_weak, Hd].
  eapply Qle_trans; [apply Qle_ceiling|].
  rewrite <- Zle_Qle. lia.
Qed.

Lemma inject_succ (n : nat) (d : Q) :
  inject_Z (Z.of_nat (S n)) * d == inject_Z (Z.of_nat n) * d + d.
Proof.
  rewrite Nat2Z.inj_succ. unfold Z.succ. rewrite inject_Z_plus. ring.
Qed.

Lemma inject_le (n m : nat) (d : Q) :
  0 <= d -> (n <= m)%nat ->
  inject_Z (Z.of_nat n) * d <= inject_Z (Z.of_nat m) * d.
Proof.
  intros Hd Hnm. apply Qmult_le_compat_r; [|assumption].
  rewrite <- Zle_Qle. lia.
Qed.

(** A loop whose cursor [pos] advances by [d > 0] or more at every turn,
    unless the turn ends the loop, ends within [(bound - pos) / d]
    turns; the property [I] it keeps holds at the end. *)
Lemma while_terminates {T : Type} (I : T -> Prop) (pos : T -> Q) (bound d : Q)
      (cond : T -> bool) (body : T -> result T) :
  0 < d ->
  (forall s, cond s = true -> pos s < bound) ->
  (forall s, I s -> cond s = true ->
     exists s', body s = Done s' /\ I s' /\
                (pos s + d <= pos s' \/ cond s' = false)) ->
  forall n s, I s -> bound - pos s <= inject_Z (Z.of_nat n) * d ->
    exists s', while n cond body s = Done s' /\ I s' /\ cond s' = false.
Proof.
  intros Hd Hc Hb n. induction n as [|n IH]; intros s Hs Hn; simpl.
  - destruct (cond s) eqn:E.
    + apply Hc in E. change (inject_Z (Z.of_nat 0)) with 0 in Hn. lra.
    + exists s. auto.
  - destruct (cond s) eqn:E; [|exists s; auto].
    destruct (Hb s Hs E) as (s1 & Hs1 & HI1 & Hadv). rewrite Hs1. simpl.
    destruct Hadv as [Hadv|Hend].
    + apply IH; [assumption|]. rewrite inject_succ in Hn. lra.
    + exists s1. destruct n; simpl; rewrite Hend; auto.
Qed.

(** *** Termination of the wood regular sweep *)
Section WoodRegularTerminates.

Variable rnd : nat -> Q.
Variable self : archipack_floor.

Hypothesis Hbw : 0 < board_width self.
Hypothesis Hbl : 0 < board_length self.
Hypothesis Hws : 0 <= width_spacing self.
Hypothesis Hls : 0 <= length_spacing self.
Hypothesis Hvw : vary_width self = true ->
  unit_source rnd /\ 0 < width_variance self <= 100.
Hypothesis Hvl : vary_length self = true ->
  unit_source rnd /\ 0 < length_variance self <= 100.

Lemma wood_regular_board_advances cur_x bw2 st :
  Qltb (fst (fst st)) (length self) = true ->
  exists st',
    wood_regular_board rnd self cur_x bw2 st = Done st' /\
    (fst (fst st) + 0.01 * board_length self <= fst (fst st') \/
     Qltb (fst (fst st')) (length self) = false).
Proof.
  destruct st as [[cur_y counter] s]. simpl. intro Hc. apply Qltb_lt in Hc.
  unfold wood_regular_board.
  destruct (if vary_thickness self then _ else _) as [z s1].
  set (ls := if vary_length self then _ else _).
  assert (Hl : 0.01 * board_length self <= fst ls).
  { subst ls. destruct (vary_length self) eqn:E; simpl; [|lra].
    destruct (Hvl eq_refl) as [Hu Hr].
    destruct (variance_band (board_length self) (length_variance self) Hbl Hr)
      as [Hv0 Hv1].
    set (v := board_length self * (length_variance self / 100) * 0.99) in *.
    pose proof (uniform_between rnd (board_length self - v)
                  (board_length self + v) s1 Hu) as Hb.
    unfold uniform in Hb. simpl in Hb. lra. }
  destruct ls as [bl2 s2]. simpl in Hl.
  eexists. split; [reflexivity|]. simpl.
  destruct (_ || _).
  - right. apply Qltb_ge. lra.
  - left. lra.
Qed.

Lemma wood_regular_column_advances fuel st :
  length self <= inject_Z (Z.of_nat fuel) * (0.01 * board_length self) ->
  Qltb (fst st) (width self) = true ->
  exists st',
    wood_regular_column rnd self fuel st = Done st' /\
    (fst st + 0.01 * board_width self <= fst st' \/
     Qltb (fst st') (width self) = false).
Proof.
  destruct st as [cur_x s]. simpl. intros Hfuel Hc. apply Qltb_lt in Hc.
  unfold wood_regular_column.
  set (ws := if vary_width self then _ else _).
  assert (Hw : 0.01 * board_width self <= fst ws).
  { subst ws. destruct (vary_width self) eqn:E; simpl; [|lra].
    destruct (Hvw eq_refl) as [Hu Hr].
    destruct (variance_band (board_width self) (width_variance self) Hbw Hr)
      as [Hv0 Hv1].
    set (v := board_width self * (width_variance self / 100) * 0.99) in *.
    pose proof (uniform_between rnd (board_width self - v)
                  (board_width self + v) s Hu) as Hb.
    unfold uniform in Hb. simpl in Hb. lra. }
  destruct ws as [bw2 s1]. simpl in Hw.
  set (bw3 := if Qgtb (bw2 + cur_x) (width self) then _ else _).
  destruct (while_terminates (fun _ => True)
              (fun st : Q * Z * buffers => fst (fst st))
              (length self) (0.01 * board_length self)
              (fun st => Qltb (fst (fst st)) (length self))
              (wood_regular_board rnd self cur_x bw3)) with (n := fuel)
              (s := (0, 1%Z, s1))
    as ([[cy cnt] s2] & Hrun & _ & _).
  - lra.
  - intros a Ha. now apply Qltb_lt.
  - intros a _ Ha.
    destruct (wood_regular_board_advances cur_x bw3 a Ha) as (a' & H1 & H2).
    exists a'. auto.
  - exact I.
  - simpl. lra.
  - rewrite Hrun. simpl. eexists. split; [reflexivity|]. simpl.
    subst bw3. destruct (Qgtb (bw2 + cur_x) (width self)).
    + right. apply Qltb_ge. lra.
    + left. lra.
Qed.

Lemma wood_regular_terminates_at fuel s :
  width self <= inject_Z (Z.of_nat fuel) * (0.01 * board_width self) ->
  length self <= inject_Z (Z.of_nat fuel) * (0.01 * board_length self) ->
  exists s', wood_regular rnd self fuel s = Done s'.
Proof.
  intros Hfw Hfl. unfold wood_regular.
  destruct (while_terminates (fun _ => True)
              (fun st : Q * buffers => fst st)
              (width self) (0.01 * board_width self)
              (fun st => Qltb (fst st) (width self))
              (wood_regular_column rnd self fuel)) with (n := fuel)
              (s := (0, s))
    as ([cx s1] & Hrun & _ & _).
  - lra.
  - intros a Ha. now apply Qltb_lt.
  - intros a _ Ha.
    destruct (wood_regular_column_advances fuel a Hfl Ha) as (a' & H1 & H2).
    exists a'. auto.
  - exact I.
  - simpl. lra.
  - rewrite Hrun. simpl. eexists. reflexivity.
Qed.

Lemma wood_regular_terminates :
  exists N, forall fuel s, (N <= fuel)%nat ->
    exists s', wood_regular rnd self fuel s = Done s'.
Proof.
  destruct (archimedean (width self) (0.01 * board_width self)) as [nx Hx];
    [lra|].
  destruct (archimedean (length self) (0.01 * board_length self)) as [ny Hy];
    [lra|].
  exists (Nat.max nx ny). intros fuel s Hf.
  apply wood_regular_terminates_at.
  - eapply Qle_trans; [exact Hx|]. apply inject_le; [lra|lia].
  - eapply Qle_trans; [exact Hy|]. apply inject_le; [lra|lia].
Qed.

End WoodRegularTerminates.

(** *** Termination of the tile regular sweep *)
Section TileRegularTerminates.

Variable rnd : nat -> Q.
Variable self : archipack_floor.

Hypothesis Htw : 0 < tile_width self.
Hypothesis Htl : 0 < tile_length self.
Hypothesis Hsp : 0 <= spacing self.
Hypothesis Hro : offset_tiles self = true -> random_offset self = true ->
  unit_source rnd /\ 0 < offset_variance self <= 100.

Variable o d : Q.
Hypothesis Hd : 0 < d.
Hypothesis Hd1 : d <= tile_width self * o.
Hypothesis Hd2 : d <= 0.01 * tile_length self.
Hypothesis Hd3 : d <= tile_width self.

Lemma tile_regular_cell_advances z cur_y tl2 off st :
  Qltb (fst st) (width self) = true ->
  exists st',
    tile_regular_cell rnd self o z cur_y tl2 off st = Done st' /\
    (fst st + d <= fst st' \/ Qltb (fst st') (width self) = false).
Proof.
  destruct st as [cur_x s]. simpl. intro Hc. apply Qltb_lt in Hc.
  unfold tile_regular_cell.
  set (ws := if (_ : bool) then (width self - cur_x, s) else _).
  assert (Hw : fst ws = width self - cur_x \/ d <= fst ws).
  { subst ws.
    destruct (Qltb cur_x (width self) && _); simpl; [now left|]. right.
    destruct (Qeq_bool cur_x 0 && off && offset_tiles self && _); simpl;
      [assumption|].
    destruct (Qeq_bool cur_x 0 && offset_tiles self && random_offset self)
      eqn:E; simpl; [|assumption].
    apply andb_true_iff in E. destruct E as [E Er].
    apply andb_true_iff in E. destruct E as [_ Eo].
    destruct (Hro Eo Er) as [Hu Hr].
    destruct (offset_band (tile_length self) (offset_variance self) Htl Hr)
      as [Hv0 Hv1].
    set (v := tile_length self * 0.0049 * offset_variance self) in *.
    pose proof (uniform_between rnd (tile_length self / 2 - v)
                  (tile_length self / 2 + v) s Hu) as Hb.
    unfold uniform in Hb. simpl in Hb.
    assert (Eh : tile_length self / 2 == 0.5 * tile_length self) by field.
    rewrite Eh in *. lra. }
  destruct ws as [tw2 s1]. simpl in Hw.
  eexists. split; [reflexivity|]. simpl.
  destruct Hw as [->|Hw].
  - right. apply Qltb_ge. lra.
  - left. lra.
Qed.

Lemma tile_regular_row_advances fuel z st :
  width self <= inject_Z (Z.of_nat fuel) * d ->
  Qltb (fst (fst st)) (length self) = true ->
  exists st',
    tile_regular_row rnd self fuel o z st = Done st' /\
    (fst (fst st) + tile_length self <= fst (fst st') \/
     Qltb (fst (fst st')) (length self) = false).
Proof.
  destruct st as [[cur_y off] s]. simpl. intros Hfuel Hc. apply Qltb_lt in Hc.
  unfold tile_regular_row.
  set (tl2 := if (_ : bool) then length self - cur_y else tile_length self).
  destruct (while_terminates (fun _ => True)
              (fun st : Q * buffers => fst st)
              (width self) d
              (fun st => Qltb (fst st) (width self))
              (tile_regular_cell rnd self o z cur_y tl2 off)) with (n := fuel)
              (s := (0, s))
    as ([cx s2] & Hrun & _ & _).
  - assumption.
  - intros a Ha. now apply Qltb_lt.
  - intros a _ Ha.
    destruct (tile_regular_cell_advances z cur_y tl2 off a Ha)
      as (a' & H1 & H2).
    exists a'. auto.
  - exact I.
  - simpl. lra.
  - rewrite Hrun. simpl. eexists. split; [reflexivity|]. simpl.
    subst tl2. destruct (_ && _).
    + right. apply Qltb_ge. lra.
    + left. lra.
Qed.

End TileRegularTerminates.

Lemma tile_regular_terminates rnd self :
  0 < tile_width self -> 0 < tile_length self -> 0 <= spacing self ->
  0 < offset self ->
  (offset_tiles self = true -> random_offset self = true ->
   unit_source rnd /\ 0 < offset_variance self <= 100) ->
  exists N, forall fuel s, (N <= fuel)%nat ->
    exists s', tile_regular rnd self fuel s = Done s'.
Proof.
  intros Htw Htl Hsp Hoff Hro.
  assert (Hq : 0 < 100 / offset self)
    by (apply Qlt_shift_div_l; [assumption|lra]).
  assert (Ho : 0 < 1 / (100 / offset self))
    by (apply Qlt_shift_div_l; [assumption|lra]).
  set (o := 1 / (100 / offset self)) in *.
  assert (Hto : 0 < tile_width self * o) by now apply Qmult_lt_0_compat.
  set (d := Qmin (tile_width self * o)
              (Qmin (0.01 * tile_length self) (tile_width self))).
  assert (Hd : 0 < d).
  { subst d. apply Q.min_glb_lt; [assumption|].
    apply Q.min_glb_lt; lra. }
  assert (Hd1 : d <= tile_width self * o) by apply Q.le_min_l.
  assert (Hd2 : d <= 0.01 * tile_length self).
  { subst d. eapply Qle_trans; [apply Q.le_min_r|apply Q.le_min_l]. }
  assert (Hd3 : d <= tile_width self).
  { subst d. eapply Qle_trans; [apply Q.le_min_r|apply Q.le_min_r]. }
  destruct (archimedean (width self) d Hd) as [nx Hx].
  destruct (archimedean (length self) (tile_length self) Htl) as [ny Hy].
  exists (Nat.max nx ny). intros fuel s Hf.
  unfold tile_regular, pydiv.
  destruct (Qeq_bool (offset self) 0) eqn:E1;
    [apply Qeq_bool_eq in E1; lra|]. simpl.
  destruct (Qeq_bool (100 / offset self) 0) eqn:E2;
    [apply Qeq_bool_eq in E2; lra|]. simpl.
  fold o.
  destruct (while_terminates (fun _ => True)
              (fun st : Q * bool * buffers => fst (fst st))
              (length self) (tile_length self)
              (fun st => Qltb (fst (fst st)) (length self))
              (tile_regular_row rnd self fuel o (thickness self)))
              with (n := fuel) (s := (0, false, s))
    as ([[cy off] s1] & Hrun & _ & _).
  - assumption.
  - intros a Ha. now apply Qltb_lt.
  - intros a _ Ha.
    destruct (tile_regular_row_advances rnd self) with (o := o) (d := d)
      (fuel := fuel) (z := thickness self) (st := a) as (a' & H1 & H2);
      try assumption.
    + eapply Qle_trans; [exact Hx|]. apply inject_le; [lra|lia].
    + exists a'. auto.
  - exact I.
  - simpl. eapply Qle_trans; [|apply inject_le with (n := ny); [lra|lia]].
    lra.
  - rewrite Hrun. simpl. eexists. reflexivity.
Qed.

(** *** Termination of the large+small sweep *)
Section LargeSmallTerminates.

Variable self : archipack_floor.

Hypothesis Htw : 0 < tile_width self.
Hypothesis Htl : 0 < tile_length self.
Hypothesis Hsp : 0 <= spacing self.

Lemma tile_large_small_cell_advances row st :
  exists st',
    tile_large_small_cell self row st = Done st' /\
    fst (fst (fst st)) + tile_width self <= fst (fst (fst st')).
Proof.
  destruct st as [[[cur_x cur_y] step_back] s]. simpl.
  unfold tile_large_small_cell.
  assert (E : (tile_width self - spacing self) / 2
              == 0.5 * tile_width self - 0.5 * spacing self) by field.
  set (s_tw := (tile_width self - spacing self) / 2) in *.
  destruct ((row =? 0)%Z || (row =? 1)%Z).
  - destruct step_back; eexists; (split; [reflexivity|]); simpl; lra.
  - destruct (Qeq_bool cur_x 0); eexists; (split; [reflexivity|]); simpl; lra.
Qed.

Lemma tile_large_small_row_advances fuel st :
  width self <= inject_Z (Z.of_nat fuel) * tile_width self ->
  0 <= fst (fst (fst st)) ->
  fst (fst (fst st)) = snd (fst (fst st)) ->
  exists st',
    tile_large_small_row self fuel st = Done st' /\
    fst (fst (fst st')) = snd (fst (fst st')) /\
    fst (fst (fst st)) + 0.5 * tile_length self <= fst (fst (fst st')).
Proof.
  destruct st as [[[cur_y pre_y] row] s]. simpl. intros Hfuel Hy <-.
  unfold tile_large_small_row.
  assert (E : (tile_width self - spacing self) / 2
              == 0.5 * tile_width self - 0.5 * spacing self) by field.
  assert (El : (tile_length self - spacing self) / 2
              == 0.5 * tile_length self - 0.5 * spacing self) by field.
  set (s_tw := (tile_width self - spacing self) / 2) in *.
  set (s_tl := (tile_length self - spacing self) / 2) in *.
  set (start := if (row =? 1)%Z then s_tw + spacing self else 0).
  assert (Hx0 : 0 <= start) by (subst start; destruct (row =? 1)%Z; lra).
  destruct (while_terminates (fun _ => True)
              (fun st : Q * Q * bool * buffers => fst (fst (fst st)))
              (width self) (tile_width self)
              (fun st => Qltb (fst (fst (fst st))) (width self))
              (tile_large_small_cell self row)) with (n := fuel)
              (s := (start, cur_y, true, s))
    as ([[[cx cy] sb] s2] & Hrun & _ & _).
  - assumption.
  - intros a Ha. now apply Qltb_lt.
  - intros a _ Ha.
    destruct (tile_large_small_cell_advances row a) as (a' & H1 & H2).
    exists a'. auto.
  - exact I.
  - simpl. lra.
  - rewrite Hrun. simpl. eexists. split; [reflexivity|]. simpl.
    split; [reflexivity|].
    destruct ((row =? 0)%Z || (row =? 2)%Z); lra.
Qed.

Lemma tile_large_small_terminates :
  exists N, forall fuel s, (N <= fuel)%nat ->
    exists s', tile_large_small self fuel s = Done s'.
Proof.
  destruct (archimedean (width self) (tile_width self) Htw) as [nx Hx].
  destruct (archimedean (length self) (0.5 * tile_length self)) as [ny Hy];
    [lra|].
  exists (Nat.max nx ny). intros fuel s Hf.
  unfold tile_large_small.
  destruct (while_terminates
              (fun st : Q * Q * Z * buffers =>
                 0 <= fst (fst (fst st)) /\
                 fst (fst (fst st)) = snd (fst (fst st)))
              (fun st : Q * Q * Z * buffers => fst (fst (fst st)))
              (length self) (0.5 * tile_length self)
              (fun st => Qltb (fst (fst (fst st))) (length self))
              (tile_large_small_row self fuel))
              with (n := fuel) (s := (0, 0, 0%Z, s))
    as ([[[cy py] row] s1] & Hrun & _ & _).
  - lra.
  - intros a Ha. now apply Qltb_lt.
  - intros a [Ha0 Ha1] Ha.
    destruct (tile_large_small_row_advances fuel a) as (a' & H1 & H2 & H3);
      try assumption.
    + eapply Qle_trans; [exact Hx|]. apply inject_le; [lra|lia].
    + exists a'. split; [assumption|]. split; [|now left].
      split; [lra|assumption].
  - simpl. split; [lra|reflexivity].
  - simpl. eapply Qle_trans; [|apply inject_le with (n := ny); [lra|lia]].
    lra.
  - rewrite Hrun. simpl. eexists. reflexivity.
Qed.

End LargeSmallTerminates.

(** *** Termination of the parquet sweep *)
Section ParquetTerminates.

Variable self : archipack_floor.

Hypothesis Hbw : 0 < board_width self.
Hypothesis Hsp : 0 <= spacing self.
Hypothesis Hn : (1 <= boards_in_group self)%Z.

Lemma group_span_ge_board :
  board_width self <=
  board_width self * inject_Z (boards_in_group self)
  + spacing self * inject_Z (boards_in_group self - 1).
Proof.
  assert (H1 : 1 <= inject_Z (boards_in_group self))
    by (change 1 with (inject_Z 1); rewrite <- Zle_Qle; lia).
  assert (H0 : 0 <= inject_Z (boards_in_group self - 1))
    by (change 0 with (inject_Z 0); rewrite <- Zle_Qle; lia).
  assert (Ha : board_width self * 1
               <= board_width self * inject_Z (boards_in_group self)).
  { rewrite !(Qmult_comm (board_width self)).
    apply Qmult_le_compat_r; lra. }
  assert (Hb : 0 <= spacing self * inject_Z (boards_in_group self - 1))
    by now apply Qmult_le_0_compat.
  lra.
Qed.

Lemma parquet_board_length_steady bl z cy st :
  (let '(_, y, _, bl2, _) := st in
   y == cy /\ (bl2 = bl \/ bl2 == length self - cy)) ->
  let '(_, y, _, bl2, _) := parquet_board_length self bl z st in
  y == cy /\ (bl2 = bl \/ bl2 == length self - cy).
Proof.
  destruct st as [[[[x y] bw2] bl2] s]. intros [Hy Hb].
  unfold parquet_board_length.
  destruct (Qltb x (width self) && Qltb y (length self)); [|now split].
  split; [lra|].
  destruct (Qltb y (length self) && Qltb (length self) (y + bl));
    [right; lra|assumption].
Qed.

Lemma parquet_board_width_climbs bl z cx cy st :
  (let '(x, y, bw2, _, _) := st in
   x == cx /\ 0 <= bw2 /\
   (cy + board_width self <= y \/ length self <= y)) ->
  let '(x, y, bw2, _, _) := parquet_board_width self bl z st in
  x == cx /\ 0 <= bw2 /\
  (cy + board_width self <= y \/ length self <= y).
Proof.
  destruct st as [[[[x y] bw2] bl2] s]. intros (Hx & Hw & Hy).
  unfold parquet_board_width.
  destruct (Qltb x (width self) && Qltb y (length self)) eqn:E;
    [|now repeat split].
  apply andb_true_iff in E. destruct E as [_ E]. apply Qltb_lt in E.
  set (bw3 := if (_ : bool) then length self - y else bw2).
  assert (Hw3 : 0 <= bw3) by (subst bw3; destruct (_ && _); lra).
  split; [lra|]. split; [assumption|]. lra.
Qed.

Lemma parquet_board_width_first bl z cx cy s :
  cx < width self -> cy < length self ->
  let '(x, y, bw2, _, _) :=
    parquet_board_width self bl z (cx, cy, board_width self, bl, s) in
  x == cx /\ 0 <= bw2 /\
  (cy + board_width self <= y \/ length self <= y).
Proof.
  intros Hx Hy. unfold parquet_board_width.
  assert (Ex : Qltb cx (width self) = true) by now apply Qltb_lt.
  assert (Ey : Qltb cy (length self) = true) by now apply Qltb_lt.
  rewrite Ex, Ey. cbn [andb].
  destruct (Qltb (length self) (cy + board_width self)).
  - split; [lra|]. split; [lra|]. right. lra.
  - split; [lra|]. split; [lra|]. left. lra.
Qed.

Lemma wood_parquet_group_advances z cx0 st :
  let bl := board_width self * inject_Z (boards_in_group self)
            + spacing self * inject_Z (boards_in_group self - 1) in
  cx0 < width self ->
  fst (fst (fst st)) == cx0 ->
  Qltb (snd (fst (fst st))) (length self) = true ->
  exists st',
    wood_parquet_group self bl z st = Done st' /\
    fst (fst (fst st')) == cx0 /\
    (snd (fst (fst st)) + board_width self <= snd (fst (fst st')) \/
     Qltb (snd (fst (fst st'))) (length self) = false).
Proof.
  intro bl. destruct st as [[[cx cy] orient] s]. simpl.
  intros Hx0 Hcx Hc. apply Qltb_lt in Hc.
  pose proof group_span_ge_board as Hbl. fold bl in Hbl.
  unfold wood_parquet_group.
  destruct orient.
  - pose proof (for_range_inv
                  (fun st : Q * Q * Q * Q * buffers =>
                     let '(_, y, _, bl2, _) := st in
                     y == cy /\ (bl2 = bl \/ bl2 == length self - cy))
                  (parquet_board_length self bl z)
                  (fun st => parquet_board_length_steady bl z cy st)
                  (Z.to_nat (boards_in_group self))
                  (cx, cy, board_width self, bl, s)) as H.
    destruct (for_range _ _ _) as [[[[x y] bw2] bl2] s1].
    destruct H as [Hy Hb]; [split; [reflexivity|now left]|].
    eexists. split; [reflexivity|]. simpl. split; [assumption|].
    destruct Hb as [->|Hb].
    + left. lra.
    + right. apply Qltb_ge. lra.
  - destruct (Z.to_nat (boards_in_group self)) as [|k] eqn:Ek; [lia|].
    cbn [for_range].
    pose proof (parquet_board_width_first bl z cx cy s) as H1.
    destruct (parquet_board_width self bl z (cx, cy, board_width self, bl, s))
      as [[[[xa ya] bwa] bla] sa] eqn:Ea.
    pose proof (for_range_inv
                  (fun st : Q * Q * Q * Q * buffers =>
                     let '(x, y, bw2, _, _) := st in
                     x == cx /\ 0 <= bw2 /\
                     (cy + board_width self <= y \/ length self <= y))
                  (parquet_board_width self bl z)
                  (fun st => parquet_board_width_climbs bl z cx cy st)
                  k (xa, ya, bwa, bla, sa)) as H.
    destruct (for_range _ _ _) as [[[[x y] bw2] bl2] s1].
    destruct H as (Hx & _ & Hy); [apply H1; lra|].
    eexists. split; [reflexivity|]. simpl. split; [lra|].
    destruct Hy as [Hy|Hy]; [now left|]. right. now apply Qltb_ge.
Qed.

Lemma wood_parquet_column_advances fuel z st :
  let bl := board_width self * inject_Z (boards_in_group self)
            + spacing self * inject_Z (boards_in_group self - 1) in
  length self <= inject_Z (Z.of_nat fuel) * board_width self ->
  Qltb (fst (fst st)) (width self) = true ->
  exists st',
    wood_parquet_column self fuel bl z st = Done st' /\
    fst (fst st) + board_width self <= fst (fst st').
Proof.
  intro bl. destruct st as [[cur_x so] s]. simpl.
  intros Hfuel Hc. apply Qltb_lt in Hc.
  pose proof group_span_ge_board as Hbl. fold bl in Hbl.
  unfold wood_parquet_column.
  destruct (while_terminates
              (fun st : Q * Q * bool * buffers => fst (fst (fst st)) == cur_x)
              (fun st : Q * Q * bool * buffers => snd (fst (fst st)))
              (length self) (board_width self)
              (fun st => Qltb (snd (fst (fst st))) (length self))
              (wood_parquet_group self bl z)) with (n := fuel)
              (s := (cur_x, 0, so, s))
    as ([[[cx cy] o] s2] & Hrun & Hcx & _).
  - assumption.
  - intros a Ha. now apply Qltb_lt.
  - intros a Hia Ha.
    destruct (wood_parquet_group_advances z cur_x a Hc Hia Ha)
      as (a' & H1 & H2 & H3).
    exists a'. auto.
  - reflexivity.
  - simpl. lra.
  - rewrite Hrun. simpl. eexists. split; [reflexivity|]. simpl.
    simpl in Hcx. lra.
Qed.

Lemma wood_parquet_terminates :
  exists N, forall fuel s, (N <= fuel)%nat ->
    exists s', wood_parquet self fuel s = Done s'.
Proof.
  destruct (archimedean (width self) (board_width self) Hbw) as [nx Hx].
  destruct (archimedean (length self) (board_width self) Hbw) as [ny Hy].
  exists (Nat.max nx ny). intros fuel s Hf.
  unfold wood_parquet.
  set (bl := board_width self * inject_Z (boards_in_group self)
             + spacing self * inject_Z (boards_in_group self - 1)).
  destruct (while_terminates (fun _ => True)
              (fun st : Q * bool * buffers => fst (fst st))
              (width self) (board_width self)
              (fun st => Qltb (fst (fst st)) (width self))
              (wood_parquet_column self fuel bl (thickness self)))
              with (n := fuel) (s := (0, true, s))
    as ([[cx o] s1] & Hrun & _ & _).
  - assumption.
  - intros a Ha. now apply Qltb_lt.
  - intros a _ Ha.
    destruct (wood_parquet_column_advances fuel (thickness self) a)
      as (a' & H1 & H2); try assumption.
    + eapply Qle_trans; [exact Hy|]. apply inject_le; [lra|lia].
    + exists a'. auto.
  - exact I.
  - simpl. eapply Qle_trans; [|apply inject_le with (n := nx); [lra|lia]].
    lra.
  - rewrite Hrun. simpl. eexists. reflexivity.
Qed.

End ParquetTerminates.

(** *** Termination of a run *)

(** With the properties within their ranges and samples of the unit
    interval, a run with enough fuel finishes, whatever the material and
    the style. *)
Lemma update_data_finishes rnd self :
  in_range self -> unit_source rnd ->
  exists N, forall fuel s, (N <= fuel)%nat ->
    exists s', update_data rnd self fuel s = Done s'.
Proof.
  intros Hr Hu. unfold update_data.
  destruct (floor_material self).
  - destruct (wood_styles self).
    + destruct (wood_regular_terminates rnd self) as [N HN];
        try apply Hr; try (intros _; split; [exact Hu|apply Hr]).
      exists N. intros fuel s Hf. now apply HN.
    + destruct (wood_parquet_terminates self) as [N HN]; try apply Hr.
      exists N. intros fuel s Hf. now apply HN.
    + exists 0%nat. intros. eexists. reflexivity.
    + exists 0%nat. intros. eexists. reflexivity.
  - destruct (tile_styles self).
    + destruct (tile_regular_terminates rnd self) as [N HN];
        try apply Hr; try (intros _ _; split; [exact Hu|apply Hr]).
      exists N. intros fuel s Hf. now apply HN.
    + destruct (tile_large_small_terminates self) as [N HN]; try apply Hr.
      exists N. intros fuel s Hf. now apply HN.
    + exists 0%nat. intros. eexists. reflexivity.
    + exists 0%nat. intros. eexists. reflexivity.
Qed.

Lemma example_random_offset_in_range : in_range example_random_offset.
Proof.
  constructor; simpl; try lia; try split; vm_compute; congruence.
Qed.

Lemma half_is_unit_source : unit_source (fun _ => 0.5).
Proof. intro i. split; vm_compute; discriminate. Qed.

(** *** C2: parity and index bounds *)



(** *** C3: the regular styles stay within the footprint *)

Lemma footprint_ok_add_cube self x y z w l t m s :
  0 <= x -> 0 <= y -> 0 <= w -> 0 <= l ->
  footprint_ok self s ->
  footprint_ok self (add_cube self x y z w l t true m s).
Proof.
  intros Hx Hy Hw Hl (Hd & Hv & Hb).
  destruct (Qlt_le_dec x (width self)) as [Hxw|Hxw];
    [|rewrite add_cube_skip by (now left); repeat split; assumption].
  destruct (Qlt_le_dec y (length self)) as [Hyl|Hyl];
    [|rewrite add_cube_skip by (now right); repeat split; assumption].
  rewrite add_cube_push by assumption.
  destruct (clipped_side (width self) x w Hxw Hw) as (Hw0 & Hw1 & _).
  destruct (clipped_side (length self) y l Hyl Hl) as (Hl0 & Hl1 & _).
  set (w' := if Qgtb (x + w) (width self) then _ else _) in *.
  set (l' := if Qgtb (y + l) (length self) then _ else _) in *.
  split; [now apply divide8_push|]. split.
  - simpl. apply Forall_app. split; [assumption|].
    unfold cube_vertices, vertex_in_footprint.
    repeat constructor; lra.
  - rewrite boxes_of_push by assumption.
    apply Forall_app. split; [assumption|].
    constructor; [|constructor].
    unfold rect_in_footprint. simpl. repeat split; lra.
Qed.

(** C3. In the wood regular and the tile regular style, for properties
    within their ranges and samples of the unit interval, a run with
    enough fuel finishes, and every vertex of a finished run lies in
    [0, W] x [0, L], and so does the extent of every emitted box. *)
Theorem regular_styles_in_footprint rnd self :
  in_range self -> unit_source rnd ->
  (floor_material self = wood /\ wood_styles self = wood_regular_style) \/
  (floor_material self = tile /\ tile_styles self = tile_regular_style) ->
  (exists N, forall fuel s, (N <= fuel)%nat ->
     exists s', update_data rnd self fuel s = Done s') /\
  (forall fuel s s',
     update_data rnd self fuel s = Done s' ->
     Forall (vertex_in_footprint self) (vs s') /\
     Forall (rect_in_footprint self) (boxes_of (vs s'))).
Proof.
  intros Hr Hu Hstyle. split; [now apply update_data_finishes|].
  intros fuel s s' Hrun.
  assert (H0 : footprint_ok self (empty_buffers (draws s))).
  { split; [exists 0%nat; reflexivity|]. split; constructor. }
  assert (Hdraw : forall b d, footprint_ok self b ->
            footprint_ok self
              {| vs := vs b; fs := fs b; ms := ms b; draws := d |})
    by (intros b d Hb; exact Hb).
  assert (Hcube : forall x y z w l t b,
             nonneg_box rnd self x y w l -> footprint_ok self b ->
             footprint_ok self (add_cube self x y z w l t true 0 b)).
  { intros x y z w l t b Hn Hb. destruct (Hn Hr Hu) as (? & ? & ? & ?).
    now apply footprint_ok_add_cube. }
  assert (Hend : footprint_ok self s').
  { unfold update_data in Hrun.
    change {| vs := []; fs := []; ms := []; draws := draws s |}
      with (empty_buffers (draws s)) in Hrun.
    destruct Hstyle as [[Hm Hs]|[Hm Hs]]; rewrite Hm, Hs in Hrun.
    - eapply (wood_regular_keeps rnd self (footprint_ok self)); eauto.
    - assert (H1 : footprint_ok self (tile_grout self (empty_buffers (draws s)))).
      { unfold tile_grout.
        pose proof (ir_width _ Hr). pose proof (ir_length _ Hr).
        apply footprint_ok_add_cube; try lra. assumption. }
      eapply (tile_regular_keeps rnd self (footprint_ok self)); eauto. }
  split; apply Hend.
Qed.

Lemma regular_styles_in_footprint_witness :
  let s' := buffers_of (update_data (fun _ => 0.5) example_random_offset 10
                          (empty_buffers 0)) in
  Forall (vertex_in_footprint example_random_offset) (vs s') /\
  Forall (rect_in_footprint example_random_offset) (boxes_of (vs s')).
Proof.
  destruct (regular_styles_in_footprint (fun _ => 0.5) example_random_offset)
    as [_ H].
  - exact example_random_offset_in_range.
  - exact half_is_unit_source.
  - right. split; reflexivity.
  - apply (H 10%nat (empty_buffers 0)). vm_compute. reflexivity.
Defined.

(** *** C5: the mortar bed comes first *)

Lemma grout_first_add_cube self x y z w l t s :
  grout_first self s -> grout_first self (add_cube self x y z w l t true 0 s).
Proof.
  intros H.
  destruct (add_cube_cases self x y z w l t true 0 s) as [E|(w' & l' & E)];
    rewrite E; [assumption|].
  destruct H as (v' & f' & m' & Hv & Hf & Hm & H0).
  exists (v' ++ cube_vertices x y z w' l' t),
         (f' ++ cube_faces (List.length (vs s))),
         (m' ++ repeat 0%nat 6).
  simpl. rewrite Hv at 1. rewrite Hf, Hm, <- !app_assoc.
  repeat split; try reflexivity.
  apply Forall_app. split; [assumption|]. repeat constructor.
Qed.

Lemma grout_first_tile_grout self d :
  0 < width self -> 0 < length self ->
  grout_first self (tile_grout self (empty_buffers d)).
Proof.
  intros HW HL. unfold tile_grout.
  rewrite add_cube_push by assumption.
  assert (Ew : Qgtb (0 + width self) (width self) = false)
    by (apply Qgtb_le; lra).
  assert (El : Qgtb (0 + length self) (length self) = false)
    by (apply Qgtb_le; lra).
  rewrite Ew, El.
  exists [], [], []. simpl. repeat split; constructor.
Qed.

(** C5. For the Tile family and a footprint with [W > 0] and [L > 0],
    whatever the tile style, a finished run's buffers begin with one slab
    [0, W] x [0, L] at [z = 0] of thickness [thickness - mortar_depth]:
    its 8 vertices first, its 6 faces first, material id 1 as the first 6
    material ids, and material id 0 for everything after it.  Within the
    ranges, a run with enough fuel finishes. *)
Theorem tile_run_grout_first rnd self :
  0 < width self -> 0 < length self ->
  floor_material self = tile ->
  (forall fuel s s',
     update_data rnd self fuel s = Done s' -> grout_first self s') /\
  (in_range self -> unit_source rnd ->
   exists N, forall fuel s, (N <= fuel)%nat ->
     exists s', update_data rnd self fuel s = Done s').
Proof.
  intros HW HL Hm. split; [|apply update_data_finishes].
  intros fuel s s' Hrun. unfold update_data in Hrun. rewrite Hm in Hrun.
  change {| vs := []; fs := []; ms := []; draws := draws s |}
    with (empty_buffers (draws s)) in Hrun.
  pose proof (grout_first_tile_grout self (draws s) HW HL) as H1.
  destruct (tile_styles self).
  - eapply (tile_regular_keeps rnd self (grout_first self)); eauto.
    intros; now apply grout_first_add_cube.
  - eapply (tile_large_small_keeps self (grout_first self)); eauto.
    intros; now apply grout_first_add_cube.
  - now injection Hrun as <-.
  - now injection Hrun as <-.
Qed.

Lemma tile_run_grout_first_witness :
  grout_first example_large_small
    (buffers_of (update_data (fun _ => 0) example_large_small 10
                   (empty_buffers 0))).
Proof.
  destruct (tile_run_grout_first (fun _ => 0) example_large_small) as [H _].
  - reflexivity.
  - reflexivity.
  - reflexivity.
  - apply (H 10%nat (empty_buffers 0)). vm_compute. reflexivity.
Defined.

(** *** C9: the large+small style is clipped like the others *)

Lemma below_edges_add_cube self x y z w l t m s :
  Forall (vertex_below_edges self) (vs s) ->
  Forall (vertex_below_edges self) (vs (add_cube self x y z w l t true m s)).
Proof.
  intros Hv.
  destruct (Qlt_le_dec x (width self)) as [Hxw|Hxw];
    [|rewrite add_cube_skip by (now left); assumption].
  destruct (Qlt_le_dec y (length self)) as [Hyl|Hyl];
    [|rewrite add_cube_skip by (now right); assumption].
  rewrite add_cube_push by assumption.
  pose proof (clipped_upper (width self) x w Hxw) as Hw1.
  pose proof (clipped_upper (length self) y l Hyl) as Hl1.
  set (w' := if Qgtb (x + w) (width self) then _ else _) in *.
  set (l' := if Qgtb (y + l) (length self) then _ else _) in *.
  simpl. apply Forall_app. split; [assumption|].
  unfold cube_vertices, vertex_below_edges.
  repeat constructor; lra.
Qed.

(** C9, as the code has it.  The large+small style emits every tile
    through [add_cube] with [clip] on, so a tile that crosses the right or
    the top edge is cut there: no vertex of a finished Tile run in this
    style has [x > W] or [y > L].  Within the ranges, a run with enough
    fuel finishes. *)
Theorem large_small_below_edges rnd self :
  floor_material self = tile -> tile_styles self = large_small ->
  (forall fuel s s',
     update_data rnd self fuel s = Done s' ->
     Forall (vertex_below_edges self) (vs s')) /\
  (in_range self -> unit_source rnd ->
   exists N, forall fuel s, (N <= fuel)%nat ->
     exists s', update_data rnd self fuel s = Done s').
Proof.
  intros Hm Hs. split; [|apply update_data_finishes].
  intros fuel s s' Hrun. unfold update_data in Hrun. rewrite Hm, Hs in Hrun.
  eapply (tile_large_small_keeps self
            (fun b => Forall (vertex_below_edges self) (vs b))); eauto.
  - intros; now apply below_edges_add_cube.
  - unfold tile_grout. apply below_edges_add_cube. constructor.
Qed.

Lemma large_small_below_edges_witness :
  Forall (vertex_below_edges example_large_small)
    (vs (buffers_of (update_data (fun _ => 0) example_large_small 10
                       (empty_buffers 0)))).
Proof.
  destruct (large_small_below_edges (fun _ => 0) example_large_small)
    as [H _].
  - reflexivity.
  - reflexivity.
  - apply (H 10%nat (empty_buffers 0)). vm_compute. reflexivity.
Defined.

(** C9, as the specification has it, fails: on the 5 x 5 floor of
    4 x 4 tiles the run finishes and the small tile asked for at
    [x = 4] with width 2 is emitted with width 1, cut at [x = W = 5]. *)
Lemma large_small_clips_at_the_edge :
  let self := example_large_small in
  let s' := buffers_of (tile_large_small self 10 (empty_buffers 0)) in
  tile_large_small self 10 (empty_buffers 0) = Done s' /\
  ~ Forall (requested_tile_width self) (boxes_of (vs s')).
Proof.
  split.
  - vm_compute. reflexivity.
  - intro H.
    assert (E : boxes_of (vs (buffers_of (tile_large_small example_large_small
                                            10 (empty_buffers 0))))
                = [{| x0 := 0; x1 := 4; y0 := 0; y1 := 4 |};
                   {| x0 := 4; x1 := 5; y0 := 4 # 2; y1 := 16 # 4 |};
                   {| x0 := 4; x1 := 5; y0 := 0; y1 := 4 # 2 |};
                   {| x0 := 4 # 2; x1 := 20 # 4; y0 := 4; y1 := 5 |}])
      by (vm_compute; reflexivity).
    cbv zeta in H. rewrite E in H.
    apply Forall_inv_tail, Forall_inv in H.
    destruct H as [H|H]; vm_compute in H; discriminate.
Qed.

(** *** C10: the accessors for material ids and uvs *)

(** C10. After any run of [update], [matids] and [uvs] are the empty
    list whatever [ms] holds, and a call of the mesh builder is handed the
    vertices and the faces only, neither material ids nor uvs. *)
Theorem matids_uvs_empty rnd self active fuel s s' call :
  update rnd self active fuel s = Done (s', call) ->
  matids s' = [] /\ uvs s' = [] /\
  forall c, call = Some c ->
    bm_verts c = vs s' /\ bm_faces c = fs s' /\
    bm_matids c = None /\ bm_uvs c = None.
Proof.
  intro Hrun. split; [reflexivity|]. split; [reflexivity|].
  intros c Hc. subst call. unfold update in Hrun.
  destruct (negb active); [discriminate|].
  apply bind_Done in Hrun. destruct Hrun as (s1 & _ & Hret).
  injection Hret as <- <-. repeat split.
Qed.

Lemma matids_uvs_empty_witness :
  let s' := buffers_of (update_data (fun _ => 0) example_large_small 10
                          (empty_buffers 0)) in
  hd_error (ms s') = Some 1%nat /\ matids s' = [] /\ uvs s' = [].
Proof.
  intro s'.
  set (call := Some {| bm_verts := verts s'; bm_faces := faces s';
                       bm_matids := None; bm_uvs := None |}).
  assert (E : update (fun _ => 0) example_large_small true 10 (empty_buffers 0)
              = Done (s', call)) by (vm_compute; reflexivity).
  split; [vm_compute; reflexivity|].
  destruct (matids_uvs_empty _ _ _ _ _ _ _ E) as (Hm & Hu & _).
  split; assumption.
Defined.

(** *** C6: the 4 x 2 example *)

(** C6. With [W = 4], [L = 2], wood regular, 1 x 1 boards, no spacing
    and no variance, a run with fuel for four turns or more emits 8
    boxes, column by column (4 columns of 2 rows), 64 vertices and 48
    faces, every material id 0, whatever the random source. *)
Theorem example_wood_run rnd k s :
  exists s',
    update_data rnd example_wood (4 + k) s = Done s' /\
    boxes_of (vs s') =
      [{| x0 := 0; x1 := 1; y0 := 0; y1 := 1 |};
       {| x0 := 0; x1 := 1; y0 := 1; y1 := 2 |};
       {| x0 := 1; x1 := 2; y0 := 0; y1 := 1 |};
       {| x0 := 1; x1 := 2; y0 := 1; y1 := 2 |};
       {| x0 := 2; x1 := 3; y0 := 0; y1 := 1 |};
       {| x0 := 2; x1 := 3; y0 := 1; y1 := 2 |};
       {| x0 := 3; x1 := 4; y0 := 0; y1 := 1 |};
       {| x0 := 3; x1 := 4; y0 := 1; y1 := 2 |}] /\
    List.length (vs s') = 64%nat /\
    List.length (fs s') = 48%nat /\
    ms s' = repeat 0%nat 48.
Proof.
  assert (H : exists s', update_data rnd example_wood 4 s = Done s')
    by (eexists; vm_compute; reflexivity).
  destruct H as (s' & H). exists s'. split.
  - apply (update_data_mono rnd example_wood 4); [lia|exact H].
  - vm_compute in H. injection H as <-.
    repeat split; vm_compute; reflexivity.
Qed.

(** *** C8: runs without variance and the random source *)

Lemma while_ext {T : Type} (cond : T -> bool) (body1 body2 : T -> result T) :
  (forall s, body1 s = body2 s) ->
  forall n s, while n cond body1 s = while n cond body2 s.
Proof.
  intros Hb n. induction n as [|n IH]; intro s; simpl.
  - reflexivity.
  - destruct (cond s); [|reflexivity].
    rewrite Hb. destruct (body2 s); simpl; auto.
Qed.

Lemma wood_regular_same_source rnd1 rnd2 self fuel s :
  vary_thickness self = false -> vary_width self = false ->
  vary_length self = false ->
  wood_regular rnd1 self fuel s = wood_regular rnd2 self fuel s.
Proof.
  intros Ht Hw Hl. unfold wood_regular. f_equal.
  apply while_ext. intros [cur_x b].
  unfold wood_regular_column. rewrite Hw. f_equal.
  apply while_ext. intros [[cur_y counter] b1].
  unfold wood_regular_board. rewrite Ht, Hl. reflexivity.
Qed.

Lemma tile_regular_same_source rnd1 rnd2 self fuel s :
  offset_tiles self && random_offset self = false ->
  tile_regular rnd1 self fuel s = tile_regular rnd2 self fuel s.
Proof.
  intros Ho. unfold tile_regular.
  destruct (pydiv 100 (offset self)) as [d| |]; simpl; try reflexivity.
  destruct (pydiv 1 d) as [o| |]; simpl; try reflexivity.
  f_equal. apply while_ext. intros [[cur_y off] b].
  unfold tile_regular_row. f_equal.
  apply while_ext. intros [cur_x b1].
  unfold tile_regular_cell.
  apply andb_false_iff in Ho.
  destruct Ho as [Ho|Ho]; rewrite Ho, ?andb_false_r; reflexivity.
Qed.

(** C8, as the code has it.  With the three [vary_*] flags off and,
    for the tile regular style, [offset_tiles] and [random_offset] not
    both on, a run does not depend on the random source: two runs with
    the same properties give the same outcome, buffers included. *)
Theorem no_variance_same_outcome rnd1 rnd2 self fuel s :
  vary_thickness self = false -> vary_width self = false ->
  vary_length self = false ->
  (floor_material self = tile -> tile_styles self = tile_regular_style ->
   offset_tiles self && random_offset self = false) ->
  update_data rnd1 self fuel s = update_data rnd2 self fuel s.
Proof.
  intros Ht Hw Hl Ho. unfold update_data.
  destruct (floor_material self).
  - destruct (wood_styles self); try reflexivity.
    now apply wood_regular_same_source.
  - destruct (tile_styles self); try reflexivity.
    apply tile_regular_same_source. now apply Ho.
Qed.

Lemma no_variance_same_outcome_witness :
  update_data (fun _ => 0) example_wood 10 (empty_buffers 0) =
  update_data (fun _ => 1) example_wood 10 (empty_buffers 0).
Proof.
  apply (no_variance_same_outcome (fun _ => 0) (fun _ => 1) example_wood 10
           (empty_buffers 0)).
  - reflexivity.
  - reflexivity.
  - reflexivity.
  - intro H. vm_compute in H. discriminate.
Defined.

(** C8, as the specification has it, fails: on the 2 x 1 floor of tiles
    no [vary_*] flag is set, yet with [offset_tiles] and [random_offset]
    on the first tile of a row takes its width from the random source,
    and two sources (samples 0 and 0.5) give two vertex buffers. *)
Lemma random_offset_depends_on_source :
  let self := example_random_offset in
  vary_thickness self = false /\ vary_width self = false /\
  vary_length self = false /\
  exists s1 s2,
    update_data (fun _ => 0) self 10 (empty_buffers 0) = Done s1 /\
    update_data (fun _ => 0.5) self 10 (empty_buffers 0) = Done s2 /\
    vs s1 <> vs s2.
Proof.
  repeat split.
  exists (buffers_of (update_data (fun _ => 0) example_random_offset 10
                        (empty_buffers 0))),
         (buffers_of (update_data (fun _ => 0.5) example_random_offset 10
                        (empty_buffers 0))).
  split; [vm_compute; reflexivity|].
  split; [vm_compute; reflexivity|].
  intro H. vm_compute in H. discriminate.
Qed.

(** *** C4: the wood regular style without variance and spacing *)

Lemma area_sum_app (l : list rect) (r : rect) :
  area_sum (l ++ [r]) == area_sum l + area r.
Proof.
  induction l as [|a l IH]; simpl.
  - ring.
  - rewrite IH. ring.
Qed.

Lemma ForallOrdPairs_snoc {A : Type} (R : A -> A -> Prop) (l : list A) (a : A) :
  ForallOrdPairs R l -> Forall (fun b => R b a) l ->
  ForallOrdPairs R (l ++ [a]).
Proof.
  induction 1 as [|b l Hb Hl IH]; intro Ha; simpl.
  - constructor; constructor.
  - apply Forall_cons_iff in Ha. destruct Ha as [Hba Ha].
    constructor; [|now apply IH].
    apply Forall_app. split; [assumption|]. now constructor.
Qed.

Section WoodRegularCoverage.

Variable rnd : nat -> Q.
Variable self : archipack_floor.

Hypothesis HW : 0 <= width self.
Hypothesis HL : 0 <= length self.
Hypothesis Hbw : 0 <= board_width self.
Hypothesis Hbl : 0 <= board_length self.
Hypothesis Hvt : vary_thickness self = false.
Hypothesis Hvw : vary_width self = false.
Hypothesis Hvl : vary_length self = false.
Hypothesis Hws : width_spacing self == 0.
Hypothesis Hls : length_spacing self == 0.

Lemma wood_regular_board_tiles cur_x bw2 st st' :
  cur_x < width self -> 0 <= bw2 -> cur_x + bw2 <= width self ->
  fst (fst st) <= length self /\
  column_tiled self cur_x bw2 (fst (fst st)) (snd st) ->
  Qltb (fst (fst st)) (length self) = true ->
  wood_regular_board rnd self cur_x bw2 st = Done st' ->
  fst (fst st') <= length self /\
  column_tiled self cur_x bw2 (fst (fst st')) (snd st').
Proof.
  destruct st as [[cur_y counter] s]. simpl.
  intros Hx Hw0 Hw1 [Hy (Hd & [Hx0 Hy0] & Hf & Hb & Hp & Ha)] Hc Hrun.
  apply Qltb_lt in Hc.
  unfold wood_regular_board in Hrun. rewrite Hvt, Hvl in Hrun.
  rewrite andb_false_r in Hrun. cbn [orb] in Hrun.
  set (bl2 := if Qgtb (cur_y + board_length self) (length self) then _ else _)
    in Hrun.
  assert (Hbl2 : 0 <= bl2 /\ cur_y + bl2 <= length self).
  { subst bl2. destruct (Qgtb _ _) eqn:E; [lra|]. apply Qgtb_le in E. lra. }
  destruct Hbl2 as [Hl0 Hl1].
  injection Hrun as <-. simpl.
  rewrite add_cube_push by assumption.
  assert (Ew : Qgtb (cur_x + bw2) (width self) = false) by now apply Qgtb_le.
  assert (El : Qgtb (cur_y + bl2) (length self) = false) by now apply Qgtb_le.
  rewrite Ew, El.
  split; [lra|]. split; [now apply divide8_push|].
  rewrite boxes_of_push by assumption.
  split; [split; lra|]. split; [|split; [|split]].
  - apply Forall_app. split; [assumption|].
    constructor; [|constructor].
    unfold rect_in_footprint. simpl. repeat split; lra.
  - apply Forall_app. split.
    + eapply Forall_impl; [|exact Hb]. intros r [H|[H1 H2]]; [now left|].
      right. split; [assumption|]. lra.
    + constructor; [|constructor]. right. simpl. split; lra.
  - apply ForallOrdPairs_snoc; [assumption|].
    eapply Forall_impl; [|exact Hb]. unfold disjoint. simpl.
    intros r [H|[H1 H2]]; [now left|]. right. right. now left.
  - rewrite area_sum_app, Ha. unfold area. simpl. rewrite Hls. ring.
Qed.

Lemma wood_regular_column_tiles fuel st st' :
  fst st <= width self /\ column_tiled self (fst st) 0 0 (snd st) ->
  Qltb (fst st) (width self) = true ->
  wood_regular_column rnd self fuel st = Done st' ->
  fst st' <= width self /\ column_tiled self (fst st') 0 0 (snd st').
Proof.
  destruct st as [cur_x s]. simpl.
  intros [Hx (Hd & [Hx0 _] & Hf & Hb & Hp & Ha)] Hc Hrun. apply Qltb_lt in Hc.
  unfold wood_regular_column in Hrun. rewrite Hvw in Hrun.
  set (bw2 := if Qgtb (board_width self + cur_x) (width self) then _ else _)
    in Hrun.
  assert (Hbw2 : 0 <= bw2 /\ cur_x + bw2 <= width self).
  { subst bw2. destruct (Qgtb _ _) eqn:E; [lra|]. apply Qgtb_le in E. lra. }
  destruct Hbw2 as [Hw0 Hw1].
  apply bind_Done in Hrun. destruct Hrun as ([[cy cnt] s2] & Hloop & Hret).
  injection Hret as <-.
  apply (while_inv (fun st => fst (fst st) <= length self /\
                     column_tiled self cur_x bw2 (fst (fst st)) (snd st)))
    in Hloop.
  - simpl in Hloop.
    destruct Hloop as [[Hcy (Hd2 & _ & Hf2 & Hb2 & Hp2 & Ha2)] Hend].
    apply Qltb_ge in Hend. simpl.
    assert (Ecy : cy == length self) by lra.
    split; [lra|]. split; [assumption|]. split; [split; lra|].
    split; [assumption|]. split; [|split; [assumption|]].
    + eapply Forall_impl; [|exact Hb2]. intros r [H|[H1 H2]]; left; lra.
    + rewrite Ha2, Ecy, Hws. ring.
  - intros a a' Hia Hca Hba.
    apply (wood_regular_board_tiles cur_x bw2 a a'); assumption.
  - simpl. split; [assumption|]. split; [assumption|]. split; [split; lra|].
    split; [assumption|]. split; [|split].
    + eapply Forall_impl; [|exact Hb]. intros r [H|[H1 H2]]; [now left|].
      right. split; lra.
    + assumption.
    + rewrite Ha. ring.
Qed.

Lemma wood_regular_tiles fuel d s' :
  wood_regular rnd self fuel (empty_buffers d) = Done s' ->
  area_sum (boxes_of (vs s')) == width self * length self /\
  ForallOrdPairs disjoint (boxes_of (vs s')) /\
  Forall (rect_in_footprint self) (boxes_of (vs s')).
Proof.
  intro Hrun. unfold wood_regular in Hrun.
  apply bind_Done in Hrun. destruct Hrun as ([cx s1] & Hloop & Hret).
  injection Hret as <-.
  apply (while_inv (fun st => fst st <= width self /\
                     column_tiled self (fst st) 0 0 (snd st))) in Hloop.
  - simpl in Hloop. destruct Hloop as [[Hcx (Hd & _ & Hf & Hb & Hp & Ha)] Hend].
    apply Qltb_ge in Hend.
    assert (Ecx : cx == width self) by lra.
    split; [|split; assumption]. rewrite Ha, Ecx. ring.
  - intros a a' Hia Hca Hba.
    apply (wood_regular_column_tiles fuel a a'); assumption.
  - simpl. split; [assumption|]. split; [exists 0%nat; reflexivity|].
    split; [split; lra|]. split; [constructor|].
    split; [constructor|]. split; [constructor|]. simpl. ring.
Qed.

End WoodRegularCoverage.

(** C4. Wood regular, no variance, [width_spacing = length_spacing = 0],
    [W > 0], [L > 0] and boards of positive width and length: with enough
    fuel the run finishes, and the footprints of the boxes of a finished
    run have areas that sum to [W * L], do not overlap one another and lie
    within [0, W] x [0, L]. *)
Theorem wood_regular_covers rnd self :
  0 < width self -> 0 < length self ->
  0 < board_width self -> 0 < board_length self ->
  floor_material self = wood -> wood_styles self = wood_regular_style ->
  vary_thickness self = false -> vary_width self = false ->
  vary_length self = false ->
  width_spacing self == 0 -> length_spacing self == 0 ->
  (exists N, forall fuel s, (N <= fuel)%nat ->
     exists s', update_data rnd self fuel s = Done s') /\
  (forall fuel s s',
     update_data rnd self fuel s = Done s' ->
     area_sum (boxes_of (vs s')) == width self * length self /\
     ForallOrdPairs disjoint (boxes_of (vs s')) /\
     Forall (rect_in_footprint self) (boxes_of (vs s'))).
Proof.
  intros HW HL Hbw Hbl Hm Hs Hvt Hvw Hvl Hws Hls.
  unfold update_data. rewrite Hm, Hs. split.
  - destruct (wood_regular_terminates rnd self Hbw Hbl) as [N HN].
    + lra.
    + lra.
    + intro H. congruence.
    + intro H. congruence.
    + exists N. intros fuel s Hf. now apply HN.
  - intros fuel s s' Hrun.
    apply (wood_regular_tiles rnd self) with (fuel := fuel) (d := draws s);
      try assumption; lra.
Qed.

Lemma wood_regular_covers_witness :
  let self := floor_with wood wood_regular_style tile_regular_style
                4 2 0 1.5 1.5 1 1 false false in
  let s' := buffers_of (update_data (fun _ => 0) self 10 (empty_buffers 0)) in
  List.length (boxes_of (vs s')) = 6%nat /\
  area_sum (boxes_of (vs s')) == 4 * 2 /\
  ForallOrdPairs disjoint (boxes_of (vs s')) /\
  Forall (rect_in_footprint self) (boxes_of (vs s')).
Proof.
  intros self s'. split; [vm_compute; reflexivity|].
  destruct (wood_regular_covers (fun _ => 0) self) as [_ H];
    try reflexivity.
  apply (H 10%nat (empty_buffers 0) s'). vm_compute. reflexivity.
Defined.

(** *** C7: strides and termination *)








Lemma wood_regular_board_total rnd self cur_x bw2 st :
  exists st', wood_regular_board rnd self cur_x bw2 st = Done st'.
Proof.
  destruct st as [[cur_y counter] s]. unfold wood_regular_board.
  destruct (if vary_thickness self then _ else _) as [z s1].
  destruct (if vary_length self then _ else _) as [bl2 s2].
  eexists. reflexivity.
Qed.


(* ------------------------------------------------------------------ *)
(** ** Further properties of the generator *)

(** *** Exceptions *)

Lemma while_never_raises {T : Type} (cond : T -> bool) (body : T -> result T) :
  (forall s e, body s <> Raise e) ->
  forall n s e, while n cond body s <> Raise e.
Proof.
  intros Hb n. induction n as [|n IH]; intros s e; simpl.
  - destruct (cond s); discriminate.
  - destruct (cond s); [|discriminate].
    destruct (body s) as [s1|e1|] eqn:E; simpl.
    + apply IH.
    + exfalso. exact (Hb s e1 E).
    + discriminate.
Qed.

Lemma bind_never_raises {A B : Type} (m : result A) (k : A -> result B) :
  (forall e, m <> Raise e) -> (forall a e, k a <> Raise e) ->
  forall e, bind m k <> Raise e.
Proof.
  intros Hm Hk e. destruct m as [a|e1|]; simpl.
  - apply Hk.
  - exfalso. exact (Hm e1 eq_refl).
  - discriminate.
Qed.

Lemma wood_regular_never_raises rnd self fuel s e :
  wood_regular rnd self fuel s <> Raise e.
Proof.
  unfold wood_regular. apply bind_never_raises.
  - intro e1. apply while_never_raises. intros [cur_x b] e2.
    unfold wood_regular_column.
    destruct (if vary_width self then _ else _) as [bw2 b1].
    apply bind_never_raises.
    + intro e3. apply while_never_raises. intros st e4.
      destruct (wood_regular_board_total rnd self cur_x
                  (if Qgtb (bw2 + cur_x) (width self)
                   then width self - cur_x else bw2) st) as (st' & ->).
      discriminate.
    + intros [[cy cnt] b2] e3. discriminate.
  - intros [cx b] e1. discriminate.
Qed.

Lemma tile_large_small_cell_total self row st :
  exists st', tile_large_small_cell self row st = Done st'.
Proof.
  destruct st as [[[cur_x cur_y] step_back] s]. unfold tile_large_small_cell.
  destruct ((row =? 0)%Z || (row =? 1)%Z).
  - destruct step_back; eexists; reflexivity.
  - destruct (Qeq_bool cur_x 0); eexists; reflexivity.
Qed.

Lemma tile_large_small_never_raises self fuel s e :
  tile_large_small self fuel s <> Raise e.
Proof.
  unfold tile_large_small. apply bind_never_raises.
  - intro e1. apply while_never_raises. intros [[[cur_y pre_y] row] b] e2.
    unfold tile_large_small_row. apply bind_never_raises.
    + intro e3. apply while_never_raises. intros st e4.
      destruct (tile_large_small_cell_total self row st) as (st' & ->).
      discriminate.
    + intros [[[cx cy] sb] b2] e3. discriminate.
  - intros [[[cy py] row] b] e1. discriminate.
Qed.

Lemma wood_parquet_group_total self bl z st :
  exists st', wood_parquet_group self bl z st = Done st'.
Proof.
  destruct st as [[[cur_x cur_y] orient] s]. unfold wood_parquet_group.
  destruct orient;
    destruct (for_range _ _ _) as [[[[a b] c] d] s1]; eexists; reflexivity.
Qed.

Lemma wood_parquet_never_raises self fuel s e :
  wood_parquet self fuel s <> Raise e.
Proof.
  unfold wood_parquet. apply bind_never_raises.
  - intro e1. apply while_never_raises. intros [[cur_x so] b] e2.
    unfold wood_parquet_column. apply bind_never_raises.
    + intro e3. apply while_never_raises. intros st e4.
      destruct (wood_parquet_group_total self
                  (board_width self * inject_Z (boards_in_group self)
                   + spacing self * inject_Z (boards_in_group self - 1))
                  (thickness self) st) as (st' & ->).
      discriminate.
    + intros [[[cx cy] o] b2] e3. discriminate.
  - intros [[cx o] b] e1. discriminate.
Qed.

Lemma tile_regular_cell_total rnd self o z cur_y tl2 off st :
  exists st', tile_regular_cell rnd self o z cur_y tl2 off st = Done st'.
Proof.
  destruct st as [cur_x s]. unfold tile_regular_cell.
  destruct (if (_ : bool) then (width self - cur_x, s) else _) as [tw2 s1].
  eexists. reflexivity.
Qed.

Lemma tile_regular_raises_iff rnd self fuel s e :
  tile_regular rnd self fuel s = Raise e <-> offset self == 0.
Proof.
  unfold tile_regular, pydiv.
  destruct (Qeq_bool (offset self) 0) eqn:E0; simpl.
  - apply Qeq_bool_eq in E0. destruct e. split; auto.
  - apply Qeq_bool_neq in E0.
    split; [|intro H; contradiction]. intro H. exfalso.
    destruct (Qeq_bool (100 / offset self) 0) eqn:E1; simpl in H.
    + apply Qeq_bool_eq in E1.
      assert (E2 : 100 == (100 / offset self) * offset self)
        by (field; assumption).
      rewrite E1 in E2. revert E2. vm_compute. discriminate.
    + revert H. apply bind_never_raises.
      * intro e1. apply while_never_raises. intros [[cy off] b] e2.
        unfold tile_regular_row. apply bind_never_raises.
        -- intro e3. apply while_never_raises. intros st e4.
           destruct (tile_regular_cell_total rnd self
                       (1 / (100 / offset self)) (thickness self) cy
                       (if Qltb cy (length self)
                           && Qltb (length self) (cy + tile_length self)
                        then length self - cy else tile_length self)
                       off st) as (st' & ->).
           discriminate.
        -- intros [cx b2] e3. discriminate.
      * intros [[cy off] b] e1. discriminate.
Qed.

(** X1. The only exception a run can raise is the division by zero of
    [tile_regular]: [update_data] raises exactly when the material is
    tile, the style regular and [offset] is 0, whatever the fuel and the
    other properties. *)
Theorem update_data_raises_iff rnd self fuel s e :
  update_data rnd self fuel s = Raise e <->
  (floor_material self = tile /\ tile_styles self = tile_regular_style /\
   offset self == 0).
Proof.
  unfold update_data.
  destruct (floor_material self) eqn:Em.
  - split; [|intros (H & _); discriminate]. intro H. exfalso.
    destruct (wood_styles self).
    + exact (wood_regular_never_raises _ _ _ _ _ H).
    + exact (wood_parquet_never_raises _ _ _ _ H).
    + discriminate.
    + discriminate.
  - destruct (tile_styles self) eqn:Es.
    + rewrite tile_regular_raises_iff. tauto.
    + split; [|intros (_ & H & _); discriminate]. intro H. exfalso.
      exact (tile_large_small_never_raises _ _ _ _ H).
    + split; [discriminate|intros (_ & H & _); discriminate].
    + split; [discriminate|intros (_ & H & _); discriminate].
Qed.

(** *** Styles without code *)

(** X2. The two wood styles and the two tile styles that are declared
    but have no sweep give no boards and no tiles: a wood run in the style
    herring_parquet or herring leaves the three buffers empty, and a tile
    run in the style large_many_small or hexagon leaves the mortar bed
    alone (when [W > 0] and [L > 0]). *)
Theorem styles_without_sweep rnd self fuel s :
  (floor_material self = wood ->
   wood_styles self = herring_parquet \/ wood_styles self = herring ->
   update_data rnd self fuel s = Done (empty_buffers (draws s))) /\
  (floor_material self = tile ->
   tile_styles self = large_many_small \/ tile_styles self = hexagon ->
   0 < width self -> 0 < length self ->
   update_data rnd self fuel s =
   Done (push_cube 0 0 0 (width self) (length self)
           (thickness self - mortar_depth self) 1 (empty_buffers (draws s)))).
Proof.
  unfold update_data. split.
  - intros -> [-> | ->]; reflexivity.
  - intros -> Hs HW HL.
    assert (E : tile_grout self
                  {| vs := []; fs := []; ms := []; draws := draws s |}
                = push_cube 0 0 0 (width self) (length self)
                    (thickness self - mortar_depth self) 1
                    (empty_buffers (draws s))).
    { unfold tile_grout.
      change {| vs := []; fs := []; ms := []; draws := draws s |}
        with (empty_buffers (draws s)).
      rewrite add_cube_push by assumption.
      assert (Ew : Qgtb (0 + width self) (width self) = false)
        by (apply Qgtb_le; lra).
      assert (El : Qgtb (0 + length self) (length self) = false)
        by (apply Qgtb_le; lra).
      now rewrite Ew, El. }
    rewrite E. destruct Hs as [-> | ->]; reflexivity.
Qed.

Lemma styles_without_sweep_witness :
  update_data (fun _ => 0)
    (floor_with wood herring tile_regular_style 4 2 0 1 1 1 1 false false)
    3 (empty_buffers 0) = Done (empty_buffers 0) /\
  List.length
    (vs (buffers_of
           (update_data (fun _ => 0)
              (floor_with tile wood_regular_style hexagon 4 2 0 1 1 1 1
                 false false)
              3 (empty_buffers 0)))) = 8%nat.
Proof.
  split.
  - apply (styles_without_sweep (fun _ => 0)
             (floor_with wood herring tile_regular_style 4 2 0 1 1 1 1
                false false) 3 (empty_buffers 0)).
    + reflexivity.
    + right. reflexivity.
  - destruct (styles_without_sweep (fun _ => 0)
                (floor_with tile wood_regular_style hexagon 4 2 0 1 1 1 1
                   false false) 3 (empty_buffers 0)) as [_ H].
    rewrite H; [reflexivity | reflexivity | now right
               | reflexivity | reflexivity].
Defined.

(** *** The layout of the buffers *)

Lemma flat_map_seq_succ {A : Type} (f : nat -> list A) (n : nat) :
  flat_map f (seq 0 (S n)) = flat_map f (seq 0 n) ++ f n.
Proof.
  rewrite seq_S, flat_map_app. simpl. now rewrite app_nil_r.
Qed.

Lemma box_layout_push_cube n x y z w l t m s :
  box_layout cube_faces n s ->
  box_layout cube_faces (S n) (push_cube x y z w l t m s).
Proof.
  intros (Hv & Hf & Hm). unfold box_layout, push_cube. cbn [vs fs ms].
  rewrite !length_app, Hv, Hm, Hf, flat_map_seq_succ, repeat_length.
  cbn [List.length cube_vertices]. repeat split; lia.
Qed.

Lemma box_layout_add_cube self x y z w l t clip m s :
  (exists n, box_layout cube_faces n s) ->
  exists n, box_layout cube_faces n (add_cube self x y z w l t clip m s).
Proof.
  intros [n H].
  destruct (add_cube_cases self x y z w l t clip m s) as [E|(w' & l' & E)];
    rewrite E.
  - now exists n.
  - exists (S n). now apply box_layout_push_cube.
Qed.

Lemma zero_ids_add_cube self x y z w l t clip s :
  Forall (fun m => m = 0%nat) (ms s) ->
  Forall (fun m => m = 0%nat) (ms (add_cube self x y z w l t clip 0 s)).
Proof.
  intros H.
  destruct (add_cube_cases self x y z w l t clip 0 s) as [E|(w' & l' & E)];
    rewrite E; [assumption|].
  simpl. apply Forall_app. split; [assumption|]. repeat constructor.
Qed.

(** X3. The buffers of a finished run hold whole boxes: for some [n],
    8n vertices, 6n material ids and 6n faces, the faces of box [k] being
    the fixed pattern of the style over the vertices [8k .. 8k + 7] (the
    pattern of [add_cube], or that of [wood_parquet] in the parquet
    style); and a wood run has no material id other than 0. *)
Theorem update_data_box_layout rnd self fuel s s' :
  update_data rnd self fuel s = Done s' ->
  (exists n, box_layout (face_pattern self) n s') /\
  (floor_material self = wood -> Forall (fun m => m = 0%nat) (ms s')).
Proof.
  intro Hrun. unfold update_data in Hrun.
  change {| vs := []; fs := []; ms := []; draws := draws s |}
    with (empty_buffers (draws s)) in Hrun.
  assert (H0 : exists n, box_layout cube_faces n (empty_buffers (draws s)))
    by (exists 0%nat; repeat split).
  assert (Z0 : Forall (fun m => m = 0%nat) (ms (empty_buffers (draws s))))
    by constructor.
  pose (P1 := fun b : buffers => exists n, box_layout cube_faces n b).
  pose (P2 := fun b : buffers => Forall (fun m => m = 0%nat) (ms b)).
  unfold face_pattern.
  destruct (floor_material self).
  - destruct (wood_styles self).
    + split; [|intros _].
      * eapply (wood_regular_keeps rnd self P1); eauto;
          unfold P1; intros; auto using box_layout_add_cube.
      * eapply (wood_regular_keeps rnd self P2); eauto;
          unfold P2; intros; auto using zero_ids_add_cube.
    + split; [|intros _].
      * eapply (wood_parquet_keeps self
                  (fun b => exists n, box_layout parquet_faces n b));
          [| |exact Hrun].
        -- intros nv b Hn (n & Hv & Hf & Hm). exists (S n).
           unfold box_layout. cbn [vs fs ms].
           rewrite !length_app, Hv, Hm, Hf, Hn, flat_map_seq_succ,
             repeat_length.
           repeat split; lia.
        -- exists 0%nat. repeat split.
      * eapply (wood_parquet_keeps self P2); [| |exact Hrun].
        -- unfold P2. intros nv b _ Hb. simpl.
           apply Forall_app. split; [assumption|]. repeat constructor.
        -- exact Z0.
    + injection Hrun as <-. split; [assumption|intros _; assumption].
    + injection Hrun as <-. split; [assumption|intros _; assumption].
  - split; [|discriminate].
    assert (H1 : P1 (tile_grout self (empty_buffers (draws s))))
      by (apply box_layout_add_cube, H0).
    destruct (tile_styles self).
    + eapply (tile_regular_keeps rnd self P1); eauto;
        unfold P1; intros; auto using box_layout_add_cube.
    + eapply (tile_large_small_keeps self P1); eauto;
        unfold P1; intros; auto using box_layout_add_cube.
    + now injection Hrun as <-.
    + now injection Hrun as <-.
Qed.

Lemma update_data_box_layout_witness :
  let s' := buffers_of (update_data (fun _ => 0) example_large_small 10
                          (empty_buffers 0)) in
  exists n, box_layout cube_faces n s'.
Proof.
  intro s'.
  apply (update_data_box_layout (fun _ => 0) example_large_small 10
           (empty_buffers 0) s').
  vm_compute. reflexivity.
Defined.

(** *** The parquet style within the footprint *)

Ltac qside := first [lra | left; lra | right; lra].

(** Evaluates the tests and remainders on integer literals of the goal. *)
Ltac zeval :=
  repeat match goal with
  | |- context [Z.eqb ?a ?b] =>
      let v := eval vm_compute in (Z.eqb a b) in change (Z.eqb a b) with v
  | |- context [Z.modulo ?a ?b] =>
      let v := eval vm_compute in (Z.modulo a b) in
      change (Z.modulo a b) with v
  end;
  cbn [orb].

Section ParquetFootprint.

Variable self : archipack_floor.

Hypothesis HW : 0 <= width self.
Hypothesis HL : 0 <= length self.
Hypothesis Hbw : 0 <= board_width self.
Hypothesis Hsp : 0 <= spacing self.

Lemma parquet_board_length_inside bl z st :
  length_boards_ok self bl st /\ all_in_footprint self (snd st) ->
  length_boards_ok self bl (parquet_board_length self bl z st) /\
  all_in_footprint self (snd (parquet_board_length self bl z st)).
Proof.
  destruct st as [[[[x y] bw2] bl2] s].
  intros [(Hx & Hy & Hw & Hl & Hbw2 & Hbl2) Hs].
  unfold parquet_board_length.
  destruct (Qltb x (width self)) eqn:Ex; cbn [andb];
    [|split; [repeat split|]; assumption].
  destruct (Qltb y (length self)) eqn:Ey; cbn [andb];
    [|split; [repeat split|]; assumption].
  apply Qltb_lt in Ex, Ey.
  assert (Hbw2' : bw2 == board_width self) by (destruct Hbw2; [assumption|lra]).
  destruct (Qltb (width self) (x + board_width self)) eqn:Ecx;
    [apply Qltb_lt in Ecx|apply Qltb_ge in Ecx];
    (destruct (Qltb (length self) (y + bl)) eqn:Ecy;
     [apply Qltb_lt in Ecy|apply Qltb_ge in Ecy]);
    (split;
     [unfold length_boards_ok;
      split; [lra|]; split; [lra|]; split; [lra|]; split; [lra|];
      split; [qside|destruct Hbl2; qside]
     |unfold all_in_footprint; cbn [snd vs]; rewrite !append_all_app;
      repeat (apply Forall_app; split); try assumption;
      unfold vertex_in_footprint;
      repeat (apply Forall_cons); try apply Forall_nil;
      destruct Hbl2; (split; [lra|]; split; [lra|]; split; lra)]).
Qed.

Lemma parquet_board_width_inside bl z st :
  width_boards_ok self bl st /\ all_in_footprint self (snd st) ->
  width_boards_ok self bl (parquet_board_width self bl z st) /\
  all_in_footprint self (snd (parquet_board_width self bl z st)).
Proof.
  destruct st as [[[[x y] bw2] bl2] s].
  intros [(Hx & Hy & Hw & Hl & Hbw2 & Hbl2) Hs].
  unfold parquet_board_width.
  destruct (Qltb x (width self)) eqn:Ex; cbn [andb];
    [|split; [repeat split|]; assumption].
  destruct (Qltb y (length self)) eqn:Ey; cbn [andb];
    [|split; [repeat split|]; assumption].
  apply Qltb_lt in Ex, Ey.
  assert (Hbw2' : bw2 == board_width self) by (destruct Hbw2; [assumption|lra]).
  destruct (Qltb (width self) (x + bl)) eqn:Ecx;
    [apply Qltb_lt in Ecx|apply Qltb_ge in Ecx];
    (destruct (Qltb (length self) (y + board_width self)) eqn:Ecy;
     [apply Qltb_lt in Ecy|apply Qltb_ge in Ecy]);
    (split;
     [unfold width_boards_ok;
      split; [lra|]; split; [lra|]; split; [lra|]; split; [lra|];
      split; [qside|destruct Hbl2; qside]
     |unfold all_in_footprint; cbn [snd vs]; rewrite !append_all_app;
      repeat (apply Forall_app; split); try assumption;
      unfold vertex_in_footprint;
      repeat (apply Forall_cons); try apply Forall_nil;
      destruct Hbl2; (split; [lra|]; split; [lra|]; split; lra)]).
Qed.

Lemma wood_parquet_group_inside bl z st st' :
  0 <= bl ->
  (0 <= fst (fst (fst st)) /\ 0 <= snd (fst (fst st))) /\ all_in_footprint self (snd st) ->
  wood_parquet_group self bl z st = Done st' ->
  (0 <= fst (fst (fst st')) /\ 0 <= snd (fst (fst st'))) /\ all_in_footprint self (snd st').
Proof.
  destruct st as [[[cx cy] orient] s]. simpl.
  intros Hbl [[Hx Hy] Hs] Hrun. unfold wood_parquet_group in Hrun.
  destruct orient.
  - pose proof (for_range_inv
                  (fun st => length_boards_ok self bl st /\ all_in_footprint self (snd st))
                  (parquet_board_length self bl z)
                  (parquet_board_length_inside bl z)
                  (Z.to_nat (boards_in_group self))
                  (cx, cy, board_width self, bl, s)) as H.
    destruct (for_range _ _ _) as [[[[x y] bw2] bl2] s1].
    destruct H as [(Hx1 & Hy1 & _ & Hl1 & _) Hs1].
    { split; [|assumption]. unfold length_boards_ok.
      repeat split; try assumption; left; reflexivity. }
    injection Hrun as <-. simpl. split; [split; lra|assumption].
  - pose proof (for_range_inv
                  (fun st => width_boards_ok self bl st /\ all_in_footprint self (snd st))
                  (parquet_board_width self bl z)
                  (parquet_board_width_inside bl z)
                  (Z.to_nat (boards_in_group self))
                  (cx, cy, board_width self, bl, s)) as H.
    destruct (for_range _ _ _) as [[[[x y] bw2] bl2] s1].
    destruct H as [(Hx1 & Hy1 & _) Hs1].
    { split; [|assumption]. unfold width_boards_ok.
      repeat split; try assumption; left; reflexivity. }
    injection Hrun as <-. simpl. split; [split; lra|assumption].
Qed.

Lemma wood_parquet_inside fuel s s' :
  0 <= board_width self * inject_Z (boards_in_group self)
       + spacing self * inject_Z (boards_in_group self - 1) ->
  all_in_footprint self s -> wood_parquet self fuel s = Done s' -> all_in_footprint self s'.
Proof.
  intros Hbl Hs Hrun. unfold wood_parquet in Hrun.
  set (bl := board_width self * inject_Z (boards_in_group self)
             + spacing self * inject_Z (boards_in_group self - 1)) in *.
  apply bind_Done in Hrun. destruct Hrun as ([[cx o] s1] & Hloop & Hret).
  injection Hret as <-.
  apply (while_inv (fun st : Q * bool * buffers =>
                      0 <= fst (fst st) /\ all_in_footprint self (snd st))) in Hloop.
  - apply Hloop.
  - clear Hloop. intros [[x so] b] a' [Hx Hb] _ Hcol. simpl in Hx, Hb.
    unfold wood_parquet_column in Hcol.
    apply bind_Done in Hcol.
    destruct Hcol as ([[[x1 y1] o1] b1] & Hin & Hret).
    injection Hret as <-. simpl.
    apply (while_inv (fun st : Q * Q * bool * buffers =>
                        (0 <= fst (fst (fst st)) /\ 0 <= snd (fst (fst st)))
                        /\ all_in_footprint self (snd st))) in Hin.
    + simpl in Hin. destruct Hin as [[[Hx1 _] Hb1] _].
      split; [lra|assumption].
    + intros a a1 Ha _ Hg.
      now apply (wood_parquet_group_inside bl (thickness self) a a1).
    + simpl. split; [split; lra|assumption].
  - simpl. split; [lra|assumption].
Qed.

End ParquetFootprint.

(** X5. In the parquet style, with the properties within their ranges,
    a run with enough fuel finishes, and every vertex of a finished run
    lies in [0, W] x [0, L]: each board that would cross the right or
    the top edge is cut there, and none starts beyond. *)
Theorem parquet_in_footprint rnd self :
  in_range self ->
  floor_material self = wood -> wood_styles self = parquet ->
  (exists N, forall fuel s, (N <= fuel)%nat ->
     exists s', update_data rnd self fuel s = Done s') /\
  (forall fuel s s',
     update_data rnd self fuel s = Done s' ->
     Forall (vertex_in_footprint self) (vs s')).
Proof.
  intros Hr Hm Hs. unfold update_data. rewrite Hm, Hs.
  pose proof (ir_width _ Hr) as HW. pose proof (ir_length _ Hr) as HL.
  pose proof (ir_board_width _ Hr) as Hbw. pose proof (ir_spacing _ Hr) as Hsp.
  pose proof (ir_boards_in_group _ Hr) as Hn.
  split.
  - destruct (wood_parquet_terminates self) as [N HN]; try assumption.
    exists N. intros fuel s Hf. now apply HN.
  - intros fuel s s' Hrun.
    apply (wood_parquet_inside self) with (fuel := fuel)
      (s := {| vs := []; fs := []; ms := []; draws := draws s |});
      try lra; try assumption.
    + pose proof (group_span_ge_board self Hbw Hsp Hn) as Hg. lra.
    + constructor.
Qed.

Lemma parquet_in_footprint_witness :
  let s' := buffers_of (update_data (fun _ => 0) example_parquet 10
                          (empty_buffers 0)) in
  List.length (vs s') = 32%nat /\
  Forall (vertex_in_footprint example_parquet) (vs s').
Proof.
  intro s'. split; [vm_compute; reflexivity|].
  destruct (parquet_in_footprint (fun _ => 0) example_parquet) as [_ H].
  - constructor; simpl; try lia; try split; vm_compute; congruence.
  - reflexivity.
  - reflexivity.
  - apply (H 10%nat (empty_buffers 0) s'). vm_compute. reflexivity.
Defined.

(** *** The large+small style within the footprint *)
Section LargeSmallFootprint.

Variable self : archipack_floor.

Hypothesis Htw : 0 <= tile_width self.
Hypothesis Htl : 0 <= tile_length self.
Hypothesis Hsp : 0 <= spacing self.
Hypothesis Hsw : spacing self <= tile_width self.
Hypothesis Hsl : spacing self <= tile_length self.

Lemma tile_large_small_cell_inside (row : Z) (cx cy : Q) (sb : bool)
      (s : buffers) (cx' cy' : Q) (sb' : bool) (s' : buffers) :
  let d := (tile_length self - spacing self) / 2 + spacing self in
  (0 <= cx /\
   if (row =? 0)%Z || (row =? 1)%Z
   then (if sb then 0 <= cy else - d <= cy)
   else d <= cy) ->
  footprint_ok self s ->
  tile_large_small_cell self row (cx, cy, sb, s) = Done (cx', cy', sb', s') ->
  (0 <= cx' /\
   if (row =? 0)%Z || (row =? 1)%Z
   then (if sb' then 0 <= cy' else - d <= cy')
   else d <= cy') /\
  footprint_ok self s'.
Proof.
  intro d. intros [Hx Hy] Hs Hrun.
  unfold tile_large_small_cell in Hrun.
  assert (Ew : (tile_width self - spacing self) / 2
               == 0.5 * tile_width self - 0.5 * spacing self) by field.
  assert (El : (tile_length self - spacing self) / 2
               == 0.5 * tile_length self - 0.5 * spacing self) by field.
  set (s_tw := (tile_width self - spacing self) / 2) in *.
  set (s_tl := (tile_length self - spacing self) / 2) in *.
  assert (Ed : d == s_tl + spacing self) by reflexivity.
  destruct ((row =? 0)%Z || (row =? 1)%Z).
  - assert (Hy' : - d <= cy) by (destruct sb; lra).
    assert (Hbig : footprint_ok self
                     (if Qltb cy 0
                      then add_cube self cx 0 0 (tile_width self)
                             (tile_length self + cy) (thickness self) true 0 s
                      else add_cube self cx cy 0 (tile_width self)
                             (tile_length self) (thickness self) true 0 s)).
    { destruct (Qltb cy 0) eqn:E;
        [|apply Qltb_ge in E]; apply footprint_ok_add_cube;
        try assumption; lra. }
    destruct sb; injection Hrun as <- <- <- <-;
      (split; [split; lra|]);
      apply footprint_ok_add_cube; try assumption; lra.
  - destruct (Qeq_bool cx 0); injection Hrun as <- <- <- <-;
      (split; [split; lra|]);
      repeat (apply footprint_ok_add_cube; try assumption; try lra).
Qed.

Lemma tile_large_small_row_inside (fuel : nat) (cur_y pre_y : Q) (row : Z)
      (s : buffers) (cur_y' pre_y' : Q) (row' : Z) (s' : buffers) :
  let d := (tile_length self - spacing self) / 2 + spacing self in
  (cur_y = pre_y /\ 0 <= cur_y /\
   (row = 0%Z \/ row = 1%Z \/ (row = 2%Z /\ d <= cur_y))) ->
  footprint_ok self s ->
  tile_large_small_row self fuel (cur_y, pre_y, row, s)
  = Done (cur_y', pre_y', row', s') ->
  (cur_y' = pre_y' /\ 0 <= cur_y' /\
   (row' = 0%Z \/ row' = 1%Z \/ (row' = 2%Z /\ d <= cur_y'))) /\
  footprint_ok self s'.
Proof.
  intro d. intros (<- & Hy & Hrow) Hs Hrun.
  unfold tile_large_small_row in Hrun.
  assert (Ew : (tile_width self - spacing self) / 2
               == 0.5 * tile_width self - 0.5 * spacing self) by field.
  assert (El : (tile_length self - spacing self) / 2
               == 0.5 * tile_length self - 0.5 * spacing self) by field.
  set (s_tw := (tile_width self - spacing self) / 2) in *.
  set (s_tl := (tile_length self - spacing self) / 2) in *.
  assert (Ed : d == s_tl + spacing self) by reflexivity.
  set (start := if (row =? 1)%Z then s_tw + spacing self else 0) in Hrun.
  assert (Hstart : 0 <= start) by (subst start; destruct (row =? 1)%Z; lra).
  apply bind_Done in Hrun.
  destruct Hrun as ([[[cx cy] sb] s1] & Hloop & Hret).
  injection Hret as <- <- <- <-.
  apply (while_inv
           (fun st : Q * Q * bool * buffers =>
              let '(x, y, b, t) := st in
              (0 <= x /\
               if (row =? 0)%Z || (row =? 1)%Z
               then (if b then 0 <= y else - d <= y)
               else d <= y) /\
              footprint_ok self t)) in Hloop.
  - destruct Hloop as [[_ Hs1] _]. split; [|assumption].
    split; [reflexivity|].
    destruct Hrow as [->|[->|[-> Hd]]]; zeval; (split; [lra|]).
    + right. left. reflexivity.
    + right. right. split; [reflexivity|lra].
    + left. reflexivity.
  - intros [[[x y] b] t] [[[x' y'] b'] t'] [Ha Ht] _ Hcell.
    exact (tile_large_small_cell_inside row x y b t x' y' b' t' Ha Ht Hcell).
  - split; [|assumption]. split; [assumption|].
    destruct Hrow as [->|[->|[-> Hd]]]; zeval; assumption.
Qed.

Lemma tile_large_small_inside fuel s s' :
  footprint_ok self s ->
  tile_large_small self fuel s = Done s' -> footprint_ok self s'.
Proof.
  intros Hs Hrun. unfold tile_large_small in Hrun.
  apply bind_Done in Hrun.
  destruct Hrun as ([[[cy py] row] s1] & Hloop & Hret).
  injection Hret as <-.
  apply (while_inv
           (fun st : Q * Q * Z * buffers =>
              let '(y, p, r, t) := st in
              (y = p /\ 0 <= y /\
               (r = 0%Z \/ r = 1%Z \/
                (r = 2%Z /\
                 (tile_length self - spacing self) / 2 + spacing self <= y)))
              /\ footprint_ok self t)) in Hloop.
  - apply Hloop.
  - intros [[[y p] r] t] [[[y' p'] r'] t'] [Ha Ht] _ Hrow.
    exact (tile_large_small_row_inside fuel y p r t y' p' r' t' Ha Ht Hrow).
  - split; [|assumption]. split; [reflexivity|]. split; [lra|].
    left. reflexivity.
Qed.

End LargeSmallFootprint.

(** X6. In the large+small style, with the properties within their
    ranges and a spacing that exceeds neither the tile width nor the tile
    length, a run with enough fuel finishes, and every vertex and every
    box of a finished run lies in [0, W] x [0, L]: the tile that starts
    below the floor after a step back is cut at [y = 0]. *)
Theorem large_small_in_footprint rnd self :
  in_range self ->
  spacing self <= tile_width self -> spacing self <= tile_length self ->
  floor_material self = tile -> tile_styles self = large_small ->
  (exists N, forall fuel s, (N <= fuel)%nat ->
     exists s', update_data rnd self fuel s = Done s') /\
  (forall fuel s s',
     update_data rnd self fuel s = Done s' ->
     Forall (vertex_in_footprint self) (vs s') /\
     Forall (rect_in_footprint self) (boxes_of (vs s'))).
Proof.
  intros Hr Hsw Hsl Hm Hs. unfold update_data. rewrite Hm, Hs.
  pose proof (ir_width _ Hr) as HW. pose proof (ir_length _ Hr) as HL.
  pose proof (ir_tile_width _ Hr) as Htw.
  pose proof (ir_tile_length _ Hr) as Htl.
  pose proof (ir_spacing _ Hr) as Hsp.
  split.
  - destruct (tile_large_small_terminates self) as [N HN]; try assumption.
    exists N. intros fuel s Hf. now apply HN.
  - intros fuel s s' Hrun.
    assert (H : footprint_ok self s').
    { apply (tile_large_small_inside self) with (fuel := fuel)
        (s := tile_grout self
                {| vs := []; fs := []; ms := []; draws := draws s |});
        try lra; try assumption.
      unfold tile_grout. apply footprint_ok_add_cube; try lra.
      split; [exists 0%nat; reflexivity|]. split; constructor. }
    split; apply H.
Qed.

Lemma large_small_in_footprint_witness :
  let s' := buffers_of (update_data (fun _ => 0) example_large_small 10
                          (empty_buffers 0)) in
  List.length (boxes_of (vs s')) = 5%nat /\
  Forall (rect_in_footprint example_large_small) (boxes_of (vs s')).
Proof.
  intro s'. split; [vm_compute; reflexivity|].
  destruct (large_small_in_footprint (fun _ => 0) example_large_small)
    as [_ H].
  - constructor; simpl; try lia; try split; vm_compute; congruence.
  - vm_compute. discriminate.
  - vm_compute. discriminate.
  - reflexivity.
  - reflexivity.
  - apply (H 10%nat (empty_buffers 0) s'). vm_compute. reflexivity.
Defined.

(** *** The tile regular style without spacing *)
Section TileRegularCoverage.

Variable rnd : nat -> Q.
Variable self : archipack_floor.
Variable pre : list rect.
Variable o : Q.

Hypothesis HW : 0 <= width self.
Hypothesis HL : 0 <= length self.
Hypothesis Htw : 0 <= tile_width self.
Hypothesis Htl : 0 < tile_length self.
Hypothesis Hsp : spacing self == 0.
Hypothesis Ho : 0 <= o.
Hypothesis Hro : offset_tiles self = true -> random_offset self = true ->
  unit_source rnd /\ 0 < offset_variance self <= 100.



End TileRegularCoverage.




(** *** The wood regular style without spacing, with variance *)

Lemma column_tiled_same_vertices self cx cw cy s s' :
  vs s' = vs s -> column_tiled self cx cw cy s -> column_tiled self cx cw cy s'.
Proof. unfold column_tiled. intros ->. auto. Qed.

Section WoodRegularCoverageVaried.

Variable rnd : nat -> Q.
Variable self : archipack_floor.

Hypothesis HW : 0 <= width self.
Hypothesis HL : 0 <= length self.
Hypothesis Hbw : 0 < board_width self.
Hypothesis Hbl : 0 < board_length self.
Hypothesis Hws : width_spacing self == 0.
Hypothesis Hls : length_spacing self == 0.
Hypothesis Hvw : vary_width self = true ->
  unit_source rnd /\ 0 < width_variance self <= 100.
Hypothesis Hvl : vary_length self = true ->
  unit_source rnd /\ 0 < length_variance self <= 100.

Lemma wood_regular_board_tiles_varied cur_x bw2 st st' :
  cur_x < width self -> 0 <= bw2 -> cur_x + bw2 <= width self ->
  fst (fst st) <= length self /\
  column_tiled self cur_x bw2 (fst (fst st)) (snd st) ->
  Qltb (fst (fst st)) (length self) = true ->
  wood_regular_board rnd self cur_x bw2 st = Done st' ->
  fst (fst st') <= length self /\
  column_tiled self cur_x bw2 (fst (fst st')) (snd st').
Proof.
  destruct st as [[cur_y counter] s]. simpl.
  intros Hx Hw0 Hw1 [Hy Htiled] Hc Hrun. apply Qltb_lt in Hc.
  unfold wood_regular_board in Hrun.
  set (zs := if vary_thickness self then _ else _) in Hrun.
  assert (Hzs : vs (snd zs) = vs s)
    by (subst zs; destruct (vary_thickness self); reflexivity).
  destruct zs as [z s1]. simpl in Hzs.
  set (ls := if vary_length self then _ else _) in Hrun.
  assert (Hl : vs (snd ls) = vs s1 /\ 0 <= fst ls).
  { subst ls. destruct (vary_length self) eqn:E; simpl;
      (split; [reflexivity|]); [|lra].
    destruct (Hvl eq_refl) as [Hu Hr].
    destruct (variance_band (board_length self) (length_variance self) Hbl Hr)
      as [Hv0 Hv1].
    set (v := board_length self * (length_variance self / 100) * 0.99) in *.
    destruct (Hu (draws s1)) as [Hu0 Hu1].
    assert (0 <= (board_length self + v - (board_length self - v))
                 * rnd (draws s1))
      by (apply Qmult_le_0_compat; lra).
    lra. }
  destruct ls as [bl2 s2]. simpl in Hl. destruct Hl as [Hvs2 Hbl2].
  set (bl3 := if (_ : bool) then length self - cur_y else bl2) in Hrun.
  assert (Hbl3 : 0 <= bl3 /\ cur_y + bl3 <= length self).
  { subst bl3. destruct (_ || _) eqn:E; [lra|].
    apply orb_false_iff in E. destruct E as [_ E]. apply Qgtb_le in E. lra. }
  destruct Hbl3 as [Hl0 Hl1].
  injection Hrun as <-. simpl.
  apply (column_tiled_same_vertices self cur_x bw2 cur_y s s2) in Htiled;
    [|now rewrite Hvs2, Hzs].
  destruct Htiled as (Hd & [Hx0 Hy0] & Hf & Hb & Hp & Ha).
  rewrite add_cube_push by assumption.
  assert (Ew : Qgtb (cur_x + bw2) (width self) = false) by now apply Qgtb_le.
  assert (El : Qgtb (cur_y + bl3) (length self) = false) by now apply Qgtb_le.
  rewrite Ew, El.
  split; [lra|]. split; [now apply divide8_push|].
  rewrite boxes_of_push by assumption.
  split; [split; lra|]. split; [|split; [|split]].
  - apply Forall_app. split; [assumption|].
    constructor; [|constructor].
    unfold rect_in_footprint. simpl. repeat split; lra.
  - apply Forall_app. split.
    + eapply Forall_impl; [|exact Hb]. intros r [H|[H1 H2]]; [now left|].
      right. split; [assumption|]. lra.
    + constructor; [|constructor]. right. simpl. split; lra.
  - apply ForallOrdPairs_snoc; [assumption|].
    eapply Forall_impl; [|exact Hb]. unfold disjoint. simpl.
    intros r [H|[H1 H2]]; [now left|]. right. right. now left.
  - rewrite area_sum_app, Ha. unfold area. simpl. rewrite Hls. ring.
Qed.

Lemma wood_regular_column_tiles_varied fuel st st' :
  fst st <= width self /\ column_tiled self (fst st) 0 0 (snd st) ->
  Qltb (fst st) (width self) = true ->
  wood_regular_column rnd self fuel st = Done st' ->
  fst st' <= width self /\ column_tiled self (fst st') 0 0 (snd st').
Proof.
  destruct st as [cur_x s]. simpl.
  intros [Hx Htiled] Hc Hrun. apply Qltb_lt in Hc.
  unfold wood_regular_column in Hrun.
  set (ws := if vary_width self then _ else _) in Hrun.
  assert (Hw : vs (snd ws) = vs s /\ 0 <= fst ws).
  { subst ws. destruct (vary_width self) eqn:E; simpl;
      (split; [reflexivity|]); [|lra].
    destruct (Hvw eq_refl) as [Hu Hr].
    destruct (variance_band (board_width self) (width_variance self) Hbw Hr)
      as [Hv0 Hv1].
    set (v := board_width self * (width_variance self / 100) * 0.99) in *.
    destruct (Hu (draws s)) as [Hu0 Hu1].
    assert (0 <= (board_width self + v - (board_width self - v))
                 * rnd (draws s))
      by (apply Qmult_le_0_compat; lra).
    lra. }
  destruct ws as [bw2 s1]. simpl in Hw. destruct Hw as [Hvs1 Hbw2].
  set (bw3 := if Qgtb (bw2 + cur_x) (width self) then _ else _) in Hrun.
  assert (Hbw3 : 0 <= bw3 /\ cur_x + bw3 <= width self).
  { subst bw3. destruct (Qgtb _ _) eqn:E; [lra|]. apply Qgtb_le in E. lra. }
  destruct Hbw3 as [Hw0 Hw1].
  apply (column_tiled_same_vertices self cur_x 0 0 s s1) in Htiled;
    [|assumption].
  destruct Htiled as (Hd & [Hx0 _] & Hf & Hb & Hp & Ha).
  apply bind_Done in Hrun. destruct Hrun as ([[cy cnt] s2] & Hloop & Hret).
  injection Hret as <-.
  apply (while_inv (fun st => fst (fst st) <= length self /\
                     column_tiled self cur_x bw3 (fst (fst st)) (snd st)))
    in Hloop.
  - simpl in Hloop.
    destruct Hloop as [[Hcy (Hd2 & _ & Hf2 & Hb2 & Hp2 & Ha2)] Hend].
    apply Qltb_ge in Hend. simpl.
    assert (Ecy : cy == length self) by lra.
    split; [lra|]. split; [assumption|]. split; [split; lra|].
    split; [assumption|]. split; [|split; [assumption|]].
    + eapply Forall_impl; [|exact Hb2]. intros r [H|[H1 H2]]; left; lra.
    + rewrite Ha2, Ecy, Hws. ring.
  - intros a a' Hia Hca Hba.
    apply (wood_regular_board_tiles_varied cur_x bw3 a a'); assumption.
  - simpl. split; [assumption|]. split; [assumption|]. split; [split; lra|].
    split; [assumption|]. split; [|split].
    + eapply Forall_impl; [|exact Hb]. intros r [H|[H1 H2]]; [now left|].
      right. split; lra.
    + assumption.
    + rewrite Ha. ring.
Qed.

Lemma wood_regular_tiles_varied fuel d s' :
  wood_regular rnd self fuel (empty_buffers d) = Done s' ->
  area_sum (boxes_of (vs s')) == width self * length self /\
  ForallOrdPairs disjoint (boxes_of (vs s')) /\
  Forall (rect_in_footprint self) (boxes_of (vs s')).
Proof.
  intro Hrun. unfold wood_regular in Hrun.
  apply bind_Done in Hrun. destruct Hrun as ([cx s1] & Hloop & Hret).
  injection Hret as <-.
  apply (while_inv (fun st => fst st <= width self /\
                     column_tiled self (fst st) 0 0 (snd st))) in Hloop.
  - simpl in Hloop. destruct Hloop as [[Hcx (Hd & _ & Hf & Hb & Hp & Ha)] Hend].
    apply Qltb_ge in Hend.
    assert (Ecx : cx == width self) by lra.
    split; [|split; assumption]. rewrite Ha, Ecx. ring.
  - intros a a' Hia Hca Hba.
    apply (wood_regular_column_tiles_varied fuel a a'); assumption.
  - simpl. split; [assumption|]. split; [exists 0%nat; reflexivity|].
    split; [split; lra|]. split; [constructor|].
    split; [constructor|]. split; [constructor|]. simpl. ring.
Qed.

End WoodRegularCoverageVaried.

(** X8. In the wood regular style without width or length spacing, with
    the properties within their ranges and samples of the unit interval,
    a run with enough fuel finishes and the boards cover the floor exactly
    whatever widths, lengths and thicknesses are sampled: their footprints
    lie in [0, W] x [0, L], do not overlap one another, and their areas
    sum to [W * L]. *)
Theorem wood_regular_covers_varied rnd self :
  in_range self -> unit_source rnd ->
  floor_material self = wood -> wood_styles self = wood_regular_style ->
  width_spacing self == 0 -> length_spacing self == 0 ->
  (exists N, forall fuel s, (N <= fuel)%nat ->
     exists s', update_data rnd self fuel s = Done s') /\
  (forall fuel s s',
     update_data rnd self fuel s = Done s' ->
     area_sum (boxes_of (vs s')) == width self * length self /\
     ForallOrdPairs disjoint (boxes_of (vs s')) /\
     Forall (rect_in_footprint self) (boxes_of (vs s'))).
Proof.
  intros Hr Hu Hm Hs Hws Hls. split; [now apply update_data_finishes|].
  intros fuel s s' Hrun. unfold update_data in Hrun. rewrite Hm, Hs in Hrun.
  pose proof (ir_width _ Hr) as HW. pose proof (ir_length _ Hr) as HL.
  apply (wood_regular_tiles_varied rnd self) with (fuel := fuel)
    (d := draws s); try assumption; try lra; try apply Hr.
  - intros _. split; [assumption|apply Hr].
  - intros _. split; [assumption|apply Hr].
Qed.

Lemma wood_regular_covers_varied_witness :
  let s' := buffers_of (update_data (fun i => if Nat.even i then 0.2 else 0.9)
                          example_varied 12 (empty_buffers 0)) in
  List.length (boxes_of (vs s')) = 12%nat /\
  area_sum (boxes_of (vs s')) == 4 * 10.
Proof.
  intro s'. split; [vm_compute; reflexivity|].
  destruct (wood_regular_covers_varied
              (fun i => if Nat.even i then 0.2 else 0.9) example_varied)
    as [_ H].
  - constructor; simpl; try lia; try split; vm_compute; congruence.
  - intro i. destruct (Nat.even i); split; vm_compute; discriminate.
  - reflexivity.
  - reflexivity.
  - reflexivity.
  - reflexivity.
  - apply (H 12%nat (empty_buffers 0) s'). vm_compute. reflexivity.
Defined.

(** *** Heights *)

(** [P] is kept by a sweep as soon as it is kept by a random draw and by
    every box that stands on [z = 0] with a thickness in [T]. *)
Section SweepHeights.

Variable rnd : nat -> Q.
Variable self : archipack_floor.
Variable P : buffers -> Prop.
Variable T : Q -> Prop.

Hypothesis P_draw : forall s d,
  P s -> P {| vs := vs s; fs := fs s; ms := ms s; draws := d |}.
Hypothesis P_add_cube : forall x y w l t s,
  T t -> P s -> P (add_cube self x y 0 w l t true 0 s).
Hypothesis T_nominal : T (thickness self).
Hypothesis T_sampled : vary_thickness self = true -> forall s,
  T (fst (uniform rnd
            (thickness self
             - thickness self * 0.99 * (thickness_variance self / 100))
            (thickness self
             + thickness self * 0.99 * (thickness_variance self / 100)) s)).



Lemma wood_regular_keeps_height fuel s s' :
  P s -> wood_regular rnd self fuel s = Done s' -> P s'.
Proof.
  intros Hs Hrun. unfold wood_regular in Hrun.
  apply bind_Done in Hrun. destruct Hrun as ([cx s1] & Hloop & Hret).
  injection Hret as <-.
  apply (while_inv (fun st : Q * buffers => P (snd st))) in Hloop;
    [apply Hloop| |assumption].
  clear Hloop. intros [x b] a' Hb _ Hcol. simpl in Hb.
  unfold wood_regular_column in Hcol.
  set (ws := if vary_width self then _ else _) in Hcol.
  assert (Hws : P (snd ws))
    by (subst ws; destruct (vary_width self); simpl;
        [now apply P_draw|assumption]).
  destruct ws as [bw2 b1]. simpl in Hws.
  apply bind_Done in Hcol. destruct Hcol as ([[cy cnt] b2] & Hin & Hret).
  injection Hret as <-. simpl.
  apply (while_inv (fun st : Q * Z * buffers => P (snd st))) in Hin;
    [apply Hin| |assumption].
  clear Hin. intros [[y c] t] a1 Ht _ Hboard. simpl in Ht.
  unfold wood_regular_board in Hboard.
  set (zs := if vary_thickness self then _ else _) in Hboard.
  assert (Hzs : P (snd zs) /\ T (fst zs)).
  { subst zs. destruct (vary_thickness self) eqn:E; simpl.
    - split; [now apply P_draw|]. exact (T_sampled eq_refl t).
    - split; assumption. }
  destruct zs as [z t1]. simpl in Hzs. destruct Hzs as [Ht1 Hz].
  set (ls := if vary_length self then _ else _) in Hboard.
  assert (Hls : P (snd ls))
    by (subst ls; destruct (vary_length self); simpl;
        [now apply P_draw|assumption]).
  destruct ls as [bl2 t2]. simpl in Hls.
  injection Hboard as <-. simpl. now apply P_add_cube.
Qed.

End SweepHeights.

Lemma standing_boxes_snoc boxes x y w l t :
  standing_boxes (boxes ++ [(x, y, w, l, t)])
  = standing_boxes boxes ++ cube_vertices x y 0 w l t.
Proof.
  unfold standing_boxes. rewrite flat_map_app. cbn [flat_map].
  now rewrite app_nil_r.
Qed.




Lemma board_tops_add_cube self (T : Q -> Prop) x y w l t s :
  T t -> board_tops T s ->
  board_tops T (add_cube self x y 0 w l t true 0 s).
Proof.
  intros Ht (boards & Hv & Hb).
  destruct (add_cube_cases self x y 0 w l t true 0 s)
    as [E|(w' & l' & E)]; rewrite E; [now exists boards|].
  exists (boards ++ [(x, y, w', l', t)]).
  rewrite standing_boxes_snoc. simpl. rewrite Hv at 1.
  split; [reflexivity|].
  apply Forall_app. split; [assumption|].
  apply Forall_cons; [exact Ht|apply Forall_nil].
Qed.

(** X10. In a finished wood regular run, with the properties within
    their ranges and samples of the unit interval, the vertex buffer is
    made of the 8 vertices of one box per board, four corners at height
    [0] and the four above them at height [0 + t], where the thickness [t]
    of the board is positive and lies between 1% and 199% of [thickness];
    when [vary_thickness] is off, [t] is [thickness] for every board.  So
    no board is flat or upside down.  A run with enough fuel finishes. *)
Theorem board_thickness_band rnd self :
  in_range self -> unit_source rnd ->
  floor_material self = wood -> wood_styles self = wood_regular_style ->
  (exists N, forall fuel s, (N <= fuel)%nat ->
     exists s', update_data rnd self fuel s = Done s') /\
  (forall fuel s s',
     update_data rnd self fuel s = Done s' ->
     board_tops (fun t => 0 < t /\
                          0.01 * thickness self <= t <= 1.99 * thickness self)
       s' /\
     (vary_thickness self = false ->
      board_tops (fun t => t = thickness self) s')).
Proof.
  intros Hr Hu Hm Hs. split; [now apply update_data_finishes|].
  intros fuel s s' Hrun. unfold update_data in Hrun. rewrite Hm, Hs in Hrun.
  pose proof (ir_thickness _ Hr) as Hth.
  assert (Hband : forall b,
            0.01 * thickness self
            <= fst (uniform rnd
                      (thickness self
                       - thickness self * 0.99 * (thickness_variance self / 100))
                      (thickness self
                       + thickness self * 0.99 * (thickness_variance self / 100))
                      b)
            <= 1.99 * thickness self).
  { intro b.
    destruct (variance_band (thickness self) (thickness_variance self))
      as [Hv0 Hv1]; [assumption|apply Hr|].
    assert (E : thickness self * 0.99 * (thickness_variance self / 100)
                == thickness self * (thickness_variance self / 100) * 0.99)
      by ring.
    set (v := thickness self * 0.99 * (thickness_variance self / 100)) in *.
    pose proof (uniform_between rnd (thickness self - v)
                  (thickness self + v) b Hu) as Hb.
    lra. }
  split.
  - eapply (wood_regular_keeps_height rnd self
              (board_tops (fun t => 0 < t /\
                                    0.01 * thickness self <= t
                                    <= 1.99 * thickness self))
              (fun t => 0 < t /\
                        0.01 * thickness self <= t <= 1.99 * thickness self))
      in Hrun;
      first [exact Hrun
            | (exists []; split; [reflexivity|constructor]; fail)
            | (split; [lra|split; lra])
            | (intros b d Hb; exact Hb)
            | (intros x y w l t b Ht Hb; now apply board_tops_add_cube)
            | (intros _ b; pose proof (Hband b); split; [lra|assumption])].
  - intro Hv.
    eapply (wood_regular_keeps_height rnd self
              (board_tops (fun t => t = thickness self))
              (fun t => t = thickness self)) in Hrun;
      first [exact Hrun
            | (exists []; split; [reflexivity|constructor]; fail)
            | reflexivity
            | (intros b d Hb; exact Hb)
            | (intros x y w l t b Ht Hb; now apply board_tops_add_cube)
            | (intro Hv'; congruence)].
Qed.

Lemma board_thickness_band_witness :
  let self := example_varied in
  let s' := buffers_of (update_data (fun _ => 0.5) self 12 (empty_buffers 0)) in
  List.length (vs s') = 96%nat /\
  board_tops (fun t => 0 < t /\
                       0.01 * thickness self <= t <= 1.99 * thickness self)
    s'.
Proof.
  intros self s'. split; [vm_compute; reflexivity|].
  destruct (board_thickness_band (fun _ => 0.5) example_varied) as [_ H].
  - constructor; simpl; try lia; try split; vm_compute; congruence.
  - exact half_is_unit_source.
  - reflexivity.
  - reflexivity.
  - apply (H 12%nat (empty_buffers 0)). vm_compute. reflexivity.
Defined.
